(** * Metalibm code generation: scoped symbol tables, nested code buffers
      and the VHDL code-generation tables

    Shallow embedding of
      - [framework/code_generation/code_object.py]
        (SymbolTable, MultiSymbolTable, CodeObject, NestedCode), and
      - [metalibm_core/code_generation/vhdl_backend.py]
        (tree modifiers, generation tables, FormalBackend / VHDLBackend).

    Modelling conventions.
      - A Python object that is compared with [is] or mutated through
        several references is represented by its identity: declared
        entities are [obj] identities, SymbolTable objects live in a
        [store] and are named by a [ref].
      - A Python [dict] that is iterated is an association list in
        insertion order (assigning to an existing key keeps the key's
        position); a dict that is only looked up is a [gmap].
      - A Python exception is a value of [exn]; a call that may raise
        returns a [result]. *)

From Stdlib Require Import ZArith Lia Ascii String.
From stdpp Require Import base option list strings gmap pretty.

Local Open Scope string_scope.
Local Open Scope list_scope.
Local Open Scope nat_scope.

(** ** Insertion-ordered dictionaries *)

Module Dict.
Section dict.
Context {K V : Type} `{EqDecision K}.

Definition t := list (K * V).

Definition keys (d : list (K * V)) : list K := d.*1.

Fixpoint get (k : K) (d : list (K * V)) : option V :=
  match d with
  | [] => None
  | (k', v) :: d' => if decide (k = k') then Some v else get k d'
  end.

(** [k in d] *)
Definition mem (k : K) (d : list (K * V)) : bool := bool_decide (k ∈ keys d).

(** [d[k] = v] *)
Fixpoint set (k : K) (v : V) (d : list (K * V)) : list (K * V) :=
  match d with
  | [] => [(k, v)]
  | (k', v') :: d' =>
      if decide (k = k') then (k, v) :: d' else (k', v') :: set k v d'
  end.
End dict.
End Dict.

(** ** Exceptions *)

Inductive exn :=
  | TypeError | NameError | UnboundLocalError | AttributeError
  | IndexError | AssertionError.

Global Instance exn_eq_dec : EqDecision exn.
Proof. solve_decision. Defined.

(** [issubclass(e, c)] on the exception classes above:
    [UnboundLocalError] derives from [NameError]. *)
Definition exn_subclass (e c : exn) : bool :=
  match e, c with
  | UnboundLocalError, NameError => true
  | _, _ => bool_decide (e = c)
  end.

Inductive result (A : Type) :=
  | Ok (a : A)
  | Raise (e : exn).
Arguments Ok {A} a.
Arguments Raise {A} e.

Definition bind {A B} (r : result A) (k : A → result B) : result B :=
  match r with
  | Ok a => k a
  | Raise e => Raise e
  end.

Notation "'do' x <- r ; k" := (bind r (λ x, k))
  (at level 10, x name, r at level 100, k at level 200).
Notation "'do' ' p <- r ; k" := (bind r (λ p, k))
  (at level 10, p pattern, r at level 100, k at level 200).

(** ** Strings *)

(** the one-character string ["\n"] *)
Definition nl : string := String "010"%char EmptyString.

Fixpoint str_repeat (n : nat) (s : string) : string :=
  match n with
  | O => EmptyString
  | S n' => s +:+ str_repeat n' s
  end.

(** [s * n] for a Python int [n]: empty when [n <= 0] *)
Definition str_mul (s : string) (n : Z) : string := str_repeat (Z.to_nat n) s.

(** [re.sub("\n", lambda _: repl, s)] *)
Fixpoint sub_newline (repl : string) (s : string) : string :=
  match s with
  | EmptyString => EmptyString
  | String c s' =>
      if decide (c = "010"%char) then repl +:+ sub_newline repl s'
      else String c (sub_newline repl s')
  end.

(** [s[-n:]] for [n > 0] *)
Definition str_last (n : nat) (s : string) : string :=
  substring (String.length s - n) n s.

(** [s[:-n]] for [n > 0] *)
Definition str_drop_last (n : nat) (s : string) : string :=
  substring 0 (String.length s - n) s.

(** ** Output languages and the code generator *)

Inductive lang := C_Code | Gappa_Code | VHDL_Code.

Global Instance lang_eq_dec : EqDecision lang.
Proof. solve_decision. Defined.

(** ** Objects, references and the store of SymbolTable objects *)

(** identity of a declared entity (constant, variable, function, table) *)
Abbreviation obj := nat (only parsing).
(** identity of a SymbolTable object *)
Abbreviation ref := nat (only parsing).

(** Modelled from the spec: the code generator class is not in the sources.
    The emission functions use its [language] attribute and its
    [generate_declaration(symbol, symbol_object)] method, "a target-syntax
    declaration statement" for one declared entity. *)
Record CodeGenerator := MkCodeGenerator {
  cg_language : lang;
  cg_generate_declaration : string → obj → string
}.

(** Modelled from the spec: [utility.version_info] is not in the sources;
    the header line prints its [version_num] and [git_sha]. *)
Record version_info := VersionInfo {
  version_num : string;
  git_sha : string
}.

(** ["%s%d" % (prefix, new_index)] *)
Definition fmt_name (prefix : string) (new_index : nat) : string :=
  prefix +:+ pretty new_index.

(** The loop
    [while not is_free_name("%s%d" % (prefix, new_index)): new_index += 1]
    run for at most [fuel] tests; [None] when the tests are used up. *)
Fixpoint probe (is_free : string → bool) (prefix : string)
    (fuel new_index : nat) : option nat :=
  match fuel with
  | O => None
  | S fuel' =>
      if is_free (fmt_name prefix new_index) then Some new_index
      else probe is_free prefix fuel' (S new_index)
  end.

Module SymbolTable.

Record t := Make {
  table : list (string * obj);
  prefix_index : gmap string nat
}.

(** [SymbolTable()] *)
Definition init : t := Make [] ∅.

Definition is_free_name (self : t) (name : string) : bool :=
  negb (Dict.mem name (table self)).

(** The parameter [var_type] is not used by the method and is left out.
    The loop stops after at most [length table + 1] tests
    (see [SymbolTable_get_free_name_total]). *)
(** [self.prefix_index[prefix] = i] *)
Definition set_prefix_index (self : t) (prefix : string) (i : nat) : t :=
  Make (table self) (<[prefix := i]> (prefix_index self)).

Definition get_free_name (self : t) (prefix : string) : option (string * t) :=
  if is_free_name self prefix then
    Some (prefix, set_prefix_index self prefix 0)
  else
    let new_index :=
      match prefix_index self !! prefix with
      | Some i => i + 1
      | None => 0
      end in
    new_index ← probe (is_free_name self) prefix
                   (S (length (table self))) new_index;
    Some (fmt_name prefix new_index, set_prefix_index self prefix new_index).

(** first key whose value is the very object [symbol_object] *)
Fixpoint has_definition_in (d : list (string * obj)) (symbol_object : obj)
    : option string :=
  match d with
  | [] => None
  | (key, o) :: d' =>
      if decide (symbol_object = o) then Some key
      else has_definition_in d' symbol_object
  end.

Definition has_definition (self : t) (symbol_object : obj) : option string :=
  has_definition_in (table self) symbol_object.

Definition declare_symbol (self : t) (name : string) (symbol_object : obj) : t :=
  Make (Dict.set name symbol_object (table self)) (prefix_index self).

Definition generate_declaration (self : t) (code_generator : CodeGenerator)
    : string :=
  foldl (λ code_object '(symbol, symbol_object),
           code_object
             +:+ cg_generate_declaration code_generator symbol symbol_object)
        EmptyString (table self).

End SymbolTable.

(** The store maps the identity of every SymbolTable object created so far
    to its current contents. *)
Abbreviation store := (gmap nat SymbolTable.t) (only parsing).

Definition deref (σ : store) (r : ref) : SymbolTable.t :=
  default SymbolTable.init (σ !! r).

(** [SymbolTable()]: a new object, whose identity is not in use *)
Definition alloc (σ : store) : store * ref :=
  let r := fresh (dom σ) in (<[r := SymbolTable.init]> σ, r).

Definition update (σ : store) (r : ref) (f : SymbolTable.t → SymbolTable.t)
    : store :=
  <[r := f (deref σ r)]> σ.

Inductive symbol_tag :=
  | ConstantSymbol | FunctionSymbol | VariableSymbol
  | ProtectedSymbol | TableSymbol.

Global Instance symbol_tag_eq_dec : EqDecision symbol_tag.
Proof. solve_decision. Defined.

(** ** Python values met by [MultiSymbolTable.is_empty] *)

(** The values that [is_empty] handles: the five symbol-tag classes (the
    keys of [table_list]), integers and booleans. *)
Inductive pyval :=
  | PyClass (tag : symbol_tag)
  | PyInt (n : Z)
  | PyBool (b : bool).

(** [len(v)]: a class object, an int and a bool have no length *)
Definition py_len (v : pyval) : result pyval :=
  match v with
  | PyClass _ | PyInt _ | PyBool _ => Raise TypeError
  end.

Definition py_int_of (v : pyval) : option Z :=
  match v with
  | PyInt n => Some n
  | PyBool b => Some (if b then 1 else 0)%Z
  | PyClass _ => None
  end.

(** [a + b] *)
Definition py_add (a b : pyval) : result pyval :=
  match py_int_of a, py_int_of b with
  | Some x, Some y => Ok (PyInt (x + y))
  | _, _ => Raise TypeError
  end.

(** [a == b] *)
Definition py_eq (a b : pyval) : bool :=
  match py_int_of a, py_int_of b with
  | Some x, Some y => bool_decide (x = y)
  | None, None =>
      match a, b with
      | PyClass s, PyClass t => bool_decide (s = t)
      | _, _ => false
      end
  | _, _ => false
  end.

(** [reduce(function, iterable)] without initializer: the first item is
    the initial accumulator; an empty iterable raises [TypeError]. *)
Definition py_reduce (function : pyval → pyval → result pyval)
    (iterable : list pyval) : result pyval :=
  match iterable with
  | [] => Raise TypeError
  | first :: rest =>
      foldl (λ acc v, do acc <- acc; function acc v) (Ok first) rest
  end.

Module MultiSymbolTable.

(** A scope. Its SymbolTable objects are named by references into the
    store, so that a table shared between scopes is one object here too.
    The parent scopes are held by value: through [parent_tables] only their
    table references and their own parents are read, and neither changes
    once the scope is built. *)
Local Unset Elimination Schemes.
Inductive t := Make {
  constant_table : ref;
  function_table : ref;
  variable_table : ref;
  protected_table : ref;
  table_table : ref;
  parent_tables : list t;
  prefix_index : gmap string nat
}.
Local Set Elimination Schemes.

Definition get_shared_table (σ : store) (tag : symbol_tag)
    (shared_tables : list (symbol_tag * ref)) : store * ref :=
  match Dict.get tag shared_tables with
  | Some r => (σ, r)
  | None => alloc σ
  end.

Definition init (σ : store) (shared_tables : list (symbol_tag * ref))
    (parent_tables : list t) : store * t :=
  let '(σ, c) := get_shared_table σ ConstantSymbol shared_tables in
  let '(σ, f) := get_shared_table σ FunctionSymbol shared_tables in
  let '(σ, v) := get_shared_table σ VariableSymbol shared_tables in
  let '(σ, p) := get_shared_table σ ProtectedSymbol shared_tables in
  let '(σ, t) := get_shared_table σ TableSymbol shared_tables in
  (σ, Make c f v p t parent_tables ∅).

Definition table_list (self : t) : list (symbol_tag * ref) :=
  [ (ConstantSymbol, constant_table self);
    (FunctionSymbol, function_table self);
    (VariableSymbol, variable_table self);
    (ProtectedSymbol, protected_table self);
    (TableSymbol, table_table self) ].

Definition get_parent_tables (self : t) : list t := parent_tables self.

Definition get_extended_dependency_table (self : t) : list t :=
  parent_tables self ++ [self].

Fixpoint is_free_name (σ : store) (self : t) (name : string) : bool :=
  match self with
  | Make c f v p t parents _ =>
      forallb (λ '(_, r), SymbolTable.is_free_name (deref σ r) name)
              [ (ConstantSymbol, c); (FunctionSymbol, f);
                (VariableSymbol, v); (ProtectedSymbol, p);
                (TableSymbol, t) ]
      && forallb (λ table, is_free_name σ table name) parents
  end.

(** every name [is_free_name] tests against *)
Fixpoint visible_names (σ : store) (self : t) : list string :=
  match self with
  | Make c f v p t parents _ =>
      concat (map (λ r, Dict.keys (SymbolTable.table (deref σ r)))
                  [c; f; v; p; t])
      ++ concat (map (visible_names σ) parents)
  end.

(** The parameter [var_type] is not used by the method and is left out.
    The loop stops after at most [length visible_names + 1] tests
    (see [get_free_name_total]). *)
(** [self.prefix_index[prefix] = i] *)
Definition set_prefix_index (self : t) (prefix : string) (i : nat) : t :=
  Make (constant_table self) (function_table self) (variable_table self)
       (protected_table self) (table_table self) (parent_tables self)
       (<[prefix := i]> (prefix_index self)).

Definition get_free_name (σ : store) (self : t) (prefix : string)
    : option (string * t) :=
  if is_free_name σ self prefix then
    Some (prefix, set_prefix_index self prefix 0)
  else
    let new_index :=
      match prefix_index self !! prefix with
      | Some i => i + 1
      | None => 0
      end in
    new_index ← probe (is_free_name σ self) prefix
                   (S (length (visible_names σ self))) new_index;
    Some (fmt_name prefix new_index, set_prefix_index self prefix new_index).

(** [reduce(lambda acc, v: acc + len(v), self.table_list) == 0]:
    iterating the dict [table_list] yields its keys, the tag classes. *)
Definition is_empty (self : t) : result bool :=
  do r <- py_reduce (λ acc v, do n <- py_len v; py_add acc n)
            (PyClass <$> Dict.keys (table_list self));
  Ok (py_eq r (PyInt 0)).

Fixpoint table_has_definition (σ : store) (self : t) (table_object : obj)
    : option string :=
  match self with
  | Make _ _ _ _ t parents _ =>
      match SymbolTable.has_definition (deref σ t) table_object with
      | Some table_key => Some table_key
      | None =>
          (fix search (tables : list MultiSymbolTable.t) : option string :=
             match tables with
             | [] => None
             | table :: tables' =>
                 match table_has_definition σ table table_object with
                 | Some table_name => Some table_name
                 | None => search tables'
                 end
             end) parents
      end
  end.

Definition declare_function_name (σ : store) (self : t)
    (function_name : string) (function_object : obj) : store :=
  update σ (function_table self)
    (λ s, SymbolTable.declare_symbol s function_name function_object).

Definition declare_var_name (σ : store) (self : t)
    (var_name : string) (var_object : obj) : store :=
  update σ (variable_table self)
    (λ s, SymbolTable.declare_symbol s var_name var_object).

Definition declare_cst_name (σ : store) (self : t)
    (cst_name : string) (cst_object : obj) : store :=
  update σ (constant_table self)
    (λ s, SymbolTable.declare_symbol s cst_name cst_object).

Definition declare_table_name (σ : store) (self : t)
    (table_name : string) (table_object : obj) : store :=
  update σ (table_table self)
    (λ s, SymbolTable.declare_symbol s table_name table_object).

Definition generate_declarations (σ : store) (self : t)
    (code_generator : CodeGenerator) (exclusion_list : list symbol_tag)
    : string :=
  foldl (λ code_object '(table_tag, r),
           if bool_decide (table_tag ∈ exclusion_list) then code_object
           else code_object
                  +:+ SymbolTable.generate_declaration (deref σ r)
                        code_generator)
        EmptyString (table_list self).

End MultiSymbolTable.

(** ** CodeObject *)

Module CodeObject.

Definition tab : string := "    ".

Record t := Make {
  expanded_code : string;
  tablevel : Z;
  header_list : list string;
  symbol_table : MultiSymbolTable.t;
  language : lang
}.

Definition init (σ : store) (language : lang)
    (shared_tables : list (symbol_tag * ref))
    (parent_tables : list MultiSymbolTable.t) : store * t :=
  let '(σ, symbol_table) :=
    MultiSymbolTable.init σ shared_tables parent_tables in
  (σ, Make EmptyString 0 [] symbol_table language).

Definition get_symbol_table (self : t) : MultiSymbolTable.t :=
  symbol_table self.

Definition set_expanded_code (self : t) (code : string) : t :=
  Make code (tablevel self) (header_list self) (symbol_table self)
       (language self).

Definition set_tablevel (self : t) (lvl : Z) : t :=
  Make (expanded_code self) lvl (header_list self) (symbol_table self)
       (language self).

Definition set_symbol_table (self : t) (m : MultiSymbolTable.t) : t :=
  Make (expanded_code self) (tablevel self) (header_list self) m
       (language self).

(** [self << added_code] *)
Definition lshift (self : t) (added_code : string) : t :=
  set_expanded_code self
    (expanded_code self
       +:+ sub_newline (nl +:+ str_mul tab (tablevel self)) added_code).

Definition inc_level (self : t) : t :=
  let self := set_tablevel self (tablevel self + 1) in
  set_expanded_code self (expanded_code self +:+ tab).

Definition dec_level (self : t) : t :=
  let self := set_tablevel self (tablevel self - 1) in
  if decide (str_last (String.length tab) (expanded_code self) = tab) then
    set_expanded_code self
      (str_drop_last (String.length tab) (expanded_code self))
  else self.

Definition open_level (self : t) : t :=
  inc_level (lshift self ("{" +:+ nl)).

Definition close_level (self : t) (cr : string) : t :=
  lshift (dec_level self) ("}" +:+ cr).

Definition link_level (self : t) (transition : string) : t :=
  inc_level (lshift (dec_level self) ("} " +:+ transition +:+ " {")).

Definition add_header (self : t) (header_file : string) : t :=
  if bool_decide (header_file ∈ header_list self) then self
  else Make (expanded_code self) (tablevel self)
            (header_list self ++ [header_file]) (symbol_table self)
            (language self).

Definition generate_header_code (self : t) (vi : version_info)
    (git_tag : bool) : string :=
  let result :=
    if git_tag then
      "/** generated using metalibm " +:+ version_num vi +:+ " " +:+ nl
        +:+ " * sha1 git: " +:+ git_sha vi +:+ " **/" +:+ nl
    else EmptyString in
  foldl (λ result header_file,
           result +:+ "#include <" +:+ header_file +:+ ">" +:+ nl)
        result (header_list self).

(** [Variable(free_var_name, precision = var_type)] is a new object;
    [var_object] is its identity. *)
Definition get_free_var_name (σ : store) (self : t) (prefix : string)
    (declare : bool) (var_object : obj) : option (string * store * t) :=
  '(free_var_name, m) ←
     MultiSymbolTable.get_free_name σ (symbol_table self) prefix;
  let σ :=
    if declare then
      MultiSymbolTable.declare_var_name σ m free_var_name var_object
    else σ in
  Some (free_var_name, σ, set_symbol_table self m).

Definition table_has_definition (σ : store) (self : t) (table_object : obj)
    : option string :=
  MultiSymbolTable.table_has_definition σ (symbol_table self) table_object.

Definition declare_cst (σ : store) (self : t) (cst_object : obj)
    (prefix : string) : option (string * store * t) :=
  '(free_var_name, m) ←
     MultiSymbolTable.get_free_name σ (symbol_table self) prefix;
  let σ := MultiSymbolTable.declare_cst_name σ m free_var_name cst_object in
  Some (free_var_name, σ, set_symbol_table self m).

Definition declare_table (σ : store) (self : t) (table_object : obj)
    (prefix : string) : option (string * store * t) :=
  match table_has_definition σ self table_object with
  | Some table_name => Some (table_name, σ, self)
  | None =>
      '(free_var_name, m) ←
         MultiSymbolTable.get_free_name σ (symbol_table self) prefix;
      let σ :=
        MultiSymbolTable.declare_table_name σ m free_var_name table_object in
      Some (free_var_name, σ, set_symbol_table self m)
  end.

Definition declare_function (σ : store) (self : t) (function_name : string)
    (function_object : obj) : string * store :=
  (function_name,
   MultiSymbolTable.declare_function_name σ (symbol_table self)
     function_name function_object).

Definition get (σ : store) (self : t) (vi : version_info)
    (code_generator : CodeGenerator)
    (static_cst static_table headers skip_function : bool) : string :=
  let result := EmptyString in
  let result :=
    if headers then
      result +:+ generate_header_code self vi true +:+ nl +:+ nl
    else result in
  let declaration_exclusion_list :=
    (if static_cst then [ConstantSymbol] else [])
    ++ (if static_table then [TableSymbol] else [])
    ++ (if skip_function then [FunctionSymbol] else []) in
  let result :=
    result +:+ MultiSymbolTable.generate_declarations σ (symbol_table self)
                 code_generator declaration_exclusion_list in
  let result :=
    result +:+ (if decide (result = EmptyString) then EmptyString else nl) in
  result +:+ expanded_code self.

Definition add_comment (self : t) (comment : string) : t :=
  lshift self ("/* " +:+ comment +:+ " */" +:+ nl).

End CodeObject.

(** ** GappaCodeObject *)

Module GappaCodeObject.

(** The value given with a hypothesis or a goal: the class [Gappa_Unknown]
    itself, a range (printed from its two bounds [inf] and [sup]), or any
    other value (printed by [str]). Bounds and other values are held by
    their printed text. *)
Inductive value :=
  | Gappa_Unknown
  | Range (inf sup : string)
  | Other (str : string).

(** [code] holds the fields inherited from CodeObject. The items of the
    three tables are held by the text that their [get()] returns. *)
Record t := Make {
  code : CodeObject.t;
  hint_table : list (string * string);
  hypothesis_table : list (string * value);
  goal_table : list (string * value)
}.

Definition init (σ : store) : store * t :=
  let '(σ, c) := CodeObject.init σ Gappa_Code [] [] in
  (σ, Make c [] [] []).

Definition add_hint (self : t) (hypoth_code goal_code : string) : t :=
  Make (code self) (hint_table self ++ [(hypoth_code, goal_code)])
       (hypothesis_table self) (goal_table self).

Definition add_hypothesis (self : t) (hypoth_code : string)
    (hypoth_value : value) : t :=
  Make (code self) (hint_table self)
       (hypothesis_table self ++ [(hypoth_code, hypoth_value)])
       (goal_table self).

(** [goal_value] defaults to [Gappa_Unknown] *)
Definition add_goal (self : t) (goal_code : string) (goal_value : value) : t :=
  Make (code self) (hint_table self) (hypothesis_table self)
       (goal_table self ++ [(goal_code, goal_value)]).

Definition gen_hint (self : t) : string :=
  foldl (λ result '(hypoth_code, goal_code),
           result +:+ hypoth_code +:+ " -> " +:+ goal_code +:+ ";"
             +:+ nl +:+ nl)
        ("#hints" +:+ nl) (hint_table self).

Definition get_value_str (v : value) : string :=
  match v with
  | Gappa_Unknown => "?"
  | Range inf sup => "[" +:+ inf +:+ ", " +:+ sup +:+ "]"
  | Other str => str
  end.

(** [sep.join(l)] *)
Fixpoint join (sep : string) (l : list string) : string :=
  match l with
  | [] => EmptyString
  | a :: l' =>
      match l' with
      | [] => a
      | _ :: _ => a +:+ sep +:+ join sep l'
      end
  end.

(** ["%s in %s" % (hc.get(), self.get_value_str(hv))] *)
Definition membership (e : string * value) : string :=
  e.1 +:+ " in " +:+ get_value_str e.2.

Definition gen_complete_goal (self : t) : string :=
  let result := "# goal" +:+ nl in
  let hypothesis := join " /\ " (map membership (hypothesis_table self)) in
  let goal := join " /\ " (map membership (goal_table self)) in
  result +:+ "{ " +:+ hypothesis +:+ " -> " +:+ goal +:+ " }" +:+ nl +:+ nl.

(** The parameter [headers] is not used by the method and is left out. *)
Definition get (σ : store) (self : t) (code_generator : CodeGenerator)
    (static_cst static_table skip_function : bool) : string :=
  let result := EmptyString in
  let declaration_exclusion_list :=
    (if static_cst then [ConstantSymbol] else [])
    ++ (if static_table then [TableSymbol] else [])
    ++ [VariableSymbol]
    ++ (if skip_function then [FunctionSymbol] else []) in
  let result :=
    result +:+ MultiSymbolTable.generate_declarations σ
                 (CodeObject.symbol_table (code self))
                 code_generator declaration_exclusion_list in
  let result :=
    result +:+ (if decide (result = EmptyString) then EmptyString else nl) in
  let result := result +:+ CodeObject.expanded_code (code self) in
  let result := result +:+ nl +:+ nl in
  let result := result +:+ gen_complete_goal self in
  result +:+ gen_hint self.

End GappaCodeObject.

(** ** NestedCode *)

Module NestedCode.

(** [main_code] is not a field of its own: the object it names is the
    outermost code object, the last element of [code_list]. *)
Record t := Make {
  language : lang;
  code_generator : CodeGenerator;
  static_cst_table : ref;
  static_table_table : ref;
  static_cst : bool;
  static_table : bool;
  static_function_table : ref;
  code_list : list CodeObject.t
}.

Definition get_cst_table (σ : store) (static_cst : bool)
    (static_cst_table : ref) : store * ref :=
  if static_cst then (σ, static_cst_table) else alloc σ.

Definition get_table_table (σ : store) (static_table : bool)
    (static_table_table : ref) : store * ref :=
  if static_table then (σ, static_table_table) else alloc σ.

Definition get_function_table (static_function_table : ref) : ref :=
  static_function_table.

(** the dict display
    [{ConstantSymbol: get_cst_table(), TableSymbol: get_table_table(),
      FunctionSymbol: get_function_table()}] *)
Definition shared_tables (σ : store) (static_cst static_table : bool)
    (static_cst_table static_table_table static_function_table : ref)
    : store * list (symbol_tag * ref) :=
  let '(σ, c) := get_cst_table σ static_cst static_cst_table in
  let '(σ, t) := get_table_table σ static_table static_table_table in
  let f := get_function_table static_function_table in
  (σ, [ (ConstantSymbol, c); (TableSymbol, t); (FunctionSymbol, f) ]).

Definition init (σ : store) (code_generator : CodeGenerator)
    (static_cst static_table : bool) : store * t :=
  let language := cg_language code_generator in
  let '(σ, static_cst_table) := alloc σ in
  let '(σ, static_table_table) := alloc σ in
  let '(σ, static_function_table) := alloc σ in
  let '(σ, shared) :=
    shared_tables σ static_cst static_table
      static_cst_table static_table_table static_function_table in
  let '(σ, main_code) := CodeObject.init σ language shared [] in
  (σ, Make language code_generator static_cst_table static_table_table
           static_cst static_table static_function_table [main_code]).

Definition set_code_list (self : t) (l : list CodeObject.t) : t :=
  Make (language self) (code_generator self) (static_cst_table self)
       (static_table_table self) (static_cst self) (static_table self)
       (static_function_table self) l.

Definition main_code (self : t) : option CodeObject.t :=
  last (code_list self).

(** [self.main_code.add_header(header_file)] *)
Definition add_header (self : t) (header_file : string) : t :=
  match reverse (code_list self) with
  | [] => self
  | main :: rest =>
      set_code_list self
        (reverse (CodeObject.add_header main header_file :: rest))
  end.

(** [self << added_code]; [code_list[0]] raises on an empty list *)
Definition lshift (self : t) (added_code : string) : result t :=
  match code_list self with
  | [] => Raise IndexError
  | c :: rest =>
      Ok (set_code_list self (CodeObject.lshift c added_code :: rest))
  end.

Definition add_comment (self : t) (comment : string) : result t :=
  match code_list self with
  | [] => Raise IndexError
  | c :: rest =>
      Ok (set_code_list self (CodeObject.add_comment c comment :: rest))
  end.

Definition open_level (σ : store) (self : t) : result (store * t) :=
  match code_list self with
  | [] => Raise IndexError
  | c :: rest =>
      let c := CodeObject.open_level c in
      let parent_tables :=
        MultiSymbolTable.get_extended_dependency_table
          (CodeObject.get_symbol_table c) in
      let '(σ, shared) :=
        shared_tables σ (static_cst self) (static_table self)
          (static_cst_table self) (static_table_table self)
          (static_function_table self) in
      let '(σ, new_code) :=
        CodeObject.init σ (language self) shared parent_tables in
      Ok (σ, set_code_list self (new_code :: c :: rest))
  end.

Definition close_level (σ : store) (self : t) (vi : version_info)
    (cr : string) : result t :=
  match code_list self with
  | [] => Raise IndexError
  | level_code :: rest =>
      let self := set_code_list self rest in
      do self <- lshift self
                   (CodeObject.get σ level_code vi (code_generator self)
                      (static_cst self) (static_table self) false true);
      match code_list self with
      | [] => Raise IndexError
      | c :: rest => Ok (set_code_list self (CodeObject.close_level c cr :: rest))
      end
  end.

(** a call on [code_list[0]] that returns a name and updates the store
    and the code object *)
Definition on_top {A} (self : t)
    (call : CodeObject.t → option (A * store * CodeObject.t))
    : result (option (A * store * t)) :=
  match code_list self with
  | [] => Raise IndexError
  | c :: rest =>
      Ok ('(a, σ, c) ← call c; Some (a, σ, set_code_list self (c :: rest)))
  end.

Definition get_free_var_name (σ : store) (self : t) (prefix : string)
    (declare : bool) (var_object : obj) :=
  on_top self
    (λ c, CodeObject.get_free_var_name σ c prefix declare var_object).

Definition declare_cst (σ : store) (self : t) (cst_object : obj)
    (prefix : string) :=
  on_top self (λ c, CodeObject.declare_cst σ c cst_object prefix).

Definition declare_table (σ : store) (self : t) (table_object : obj)
    (prefix : string) :=
  on_top self (λ c, CodeObject.declare_table σ c table_object prefix).

Definition declare_function (σ : store) (self : t) (function_name : string)
    (function_object : obj) : result (string * store) :=
  match code_list self with
  | [] => Raise IndexError
  | c :: _ =>
      Ok (CodeObject.declare_function σ c function_name function_object)
  end.

Definition get (σ : store) (self : t) (vi : version_info)
    (code_generator : CodeGenerator) : result string :=
  match code_list self with
  | [] => Raise IndexError
  | c :: _ => Ok (CodeObject.get σ c vi code_generator false false true false)
  end.

End NestedCode.

(** * The VHDL backend *)

(** ** Formats, operation nodes *)

(** Modelled from the spec: [core.ml_formats] and [core.ml_hdl_format] are
    not in the sources. A format is a type descriptor compared by exact
    identity or by membership in a category; these are the formats that
    [vhdl_backend.py] names, [ML_StdLogicVectorFormat n] being an instance
    of the class [ML_StdLogicVectorFormat] of bit size [n]. *)
Inductive ML_Format :=
  | ML_Int8 | ML_UInt8 | ML_Int16 | ML_UInt16 | ML_Int32 | ML_UInt32
  | ML_Int64 | ML_UInt64 | ML_Int128 | ML_UInt128
  | ML_Integer | ML_Bool | ML_StdLogic
  | ML_Binary16 | ML_Binary32 | ML_Binary64
  | ML_StdLogicVectorFormat (bit_size : Z).

Global Instance ML_Format_eq_dec : EqDecision ML_Format.
Proof. solve_decision. Defined.

(** [isinstance(fmt, ML_StdLogicVectorFormat)]; [None] is not an instance *)
Definition is_std_logic_vector (fmt : option ML_Format) : bool :=
  match fmt with
  | Some (ML_StdLogicVectorFormat _) => true
  | _ => false
  end.

(** Modelled from the spec: [core.ml_operations] and
    [core.ml_hdl_operations] are not in the sources. These are the operation
    classes (the "kind" of a node) that [vhdl_backend.py] uses as keys of
    its tables or builds in its modifiers. *)
Module Op.
Inductive t :=
  | Addition | Subtraction | Multiplication | BitLogicNegate | Negation
  | LogicalAnd | Event | Comparison | ExponentExtraction | ZeroExt
  | Concatenation | VectorElementSelection | Replication | Conversion
  | MantissaExtraction | CopySign | BitLogicXor | BitLogicAnd | BitLogicOr
  | Truncate | SignCast | TypeCast | BitLogicRightShift | BitLogicLeftShift
  | CountLeadingZeros | SpecificOperation | SubSignalSelection
  | Select | Constant.

Global Instance op_eq_dec : EqDecision t.
Proof. solve_decision. Defined.
End Op.

(** Modelled from the spec: the specifiers (the optional sub-discriminant
    of a node) that [vhdl_backend.py] names. *)
Module Specifier.
Inductive t :=
  | SignCast_Signed | SignCast_Unsigned
  | SpecificOperation_CopySign
  | Comparison_Equal | Comparison_NotEqual | Comparison_Less
  | Comparison_LessOrEqual | Comparison_GreaterOrEqual | Comparison_Greater
  | Comparison_LessSigned | Comparison_LessOrEqualSigned
  | Comparison_GreaterOrEqualSigned | Comparison_GreaterSigned.

Global Instance specifier_eq_dec : EqDecision t.
Proof. solve_decision. Defined.
End Specifier.

(** Modelled from the spec: the node classes are not in the sources. An
    operation node has a kind, an optional specifier, an ordered sequence
    of child nodes, a result format and an optional tag; [precision] and
    [tag] are [None] when not set. [ext_size] is the attribute that the
    extension modifiers read (extension nodes only), [value] the value of a
    constant. *)
Local Unset Elimination Schemes.
Inductive ML_Operation := Node {
  op_class : Op.t;
  specifier : option Specifier.t;
  inputs : list ML_Operation;
  precision : option ML_Format;
  tag : option string;
  ext_size : option Z;
  value : option Z
}.
Local Set Elimination Schemes.

Definition get_precision (optree : ML_Operation) : option ML_Format :=
  precision optree.

Definition get_tag (optree : ML_Operation) : option string := tag optree.

(** [optree.get_input(i)] *)
Definition get_input (optree : ML_Operation) (i : nat) : result ML_Operation :=
  match inputs optree !! i with
  | Some x => Ok x
  | None => Raise IndexError
  end.

(** [optree.ext_size] *)
Definition get_ext_size (optree : ML_Operation) : result Z :=
  match ext_size optree with
  | Some n => Ok n
  | None => Raise AttributeError
  end.

(** the constructor calls made by the modifiers *)
Definition Addition (a b : ML_Operation) (precision : option ML_Format)
    (tag : option string) : ML_Operation :=
  Node Op.Addition None [a; b] precision tag None None.

Definition BitLogicNegate (a : ML_Operation) (precision : option ML_Format)
    : ML_Operation :=
  Node Op.BitLogicNegate None [a] precision None None None.

Definition Constant (value : Z) (precision : option ML_Format) : ML_Operation :=
  Node Op.Constant None [] precision None None (Some value).

Definition VectorElementSelection (a index : ML_Operation)
    (precision : option ML_Format) : ML_Operation :=
  Node Op.VectorElementSelection None [a; index] precision None None None.

Definition Replication (a : ML_Operation) (precision : option ML_Format) : ML_Operation :=
  Node Op.Replication None [a] precision None None None.

Definition Concatenation (a b : ML_Operation) (precision : option ML_Format)
    (tag : option string) : ML_Operation :=
  Node Op.Concatenation None [a; b] precision tag None None.

(** ** Applicability predicates and tree modifiers *)

Definition exclude_std_logic (optree : ML_Operation) : bool :=
  negb (is_std_logic_vector (get_precision optree)).

Definition include_std_logic (optree : ML_Operation) : bool :=
  is_std_logic_vector (get_precision optree).

Definition negation_modifer (optree : ML_Operation) : result ML_Operation :=
  do neg_input <- get_input optree 0;
  let precision := get_precision optree in
  Ok (Addition
        (BitLogicNegate neg_input precision)
        (Constant 1 (Some ML_StdLogic))
        precision
        (get_tag optree)).

(** the value of a function-local name: reading it before any assignment
    raises [UnboundLocalError] *)
Definition load_local {A} (x : option A) : result A :=
  match x with
  | Some a => Ok a
  | None => Raise UnboundLocalError
  end.

Section sext_modifier.
(** [fmt.get_bit_size()], from [core.ml_formats]; on [None] the method
    lookup raises [AttributeError] *)
Variable get_bit_size : ML_Format → result Z.

Definition precision_bit_size (optree : ML_Operation) : result Z :=
  match get_precision optree with
  | Some fmt => get_bit_size fmt
  | None => Raise AttributeError
  end.

(** The local name [ext_input] is bound only by the third statement; the
    second statement already reads it. *)
Definition sext_modifier (optree : ML_Operation) : result ML_Operation :=
  let ext_input : option ML_Operation := None in
  do ext_size <- get_ext_size optree;
  do ext_precision <-
    (do ext_input_value <- load_local ext_input;
     do bit_size <- precision_bit_size ext_input_value;
     Ok (ML_StdLogicVectorFormat (ext_size + bit_size)));
  do ext_input <- get_input optree 0;
  do op_size <- precision_bit_size ext_input;
  let sign_digit :=
    VectorElementSelection ext_input
      (Constant (op_size - 1) (Some ML_Integer)) (Some ML_StdLogic) in
  let precision := ML_StdLogicVectorFormat ext_size in
  Ok (Concatenation (Replication sign_digit (Some precision)) optree
        (Some ext_precision) (get_tag optree)).
End sext_modifier.

Section zext_modifier.
(** [fmt.get_bit_size()], as for [sext_modifier] *)
Variable get_bit_size : ML_Format → result Z.
(** [Log.report(Log.Warning, "zext_modifer called with ext_size=0 on
    {}".format(optree.get_str()))]: the logging class and [get_str] are not
    part of this file; the call writes a message and returns, or raises. *)
Variable report_warning : ML_Operation → result unit.

Definition zext_modifier (optree : ML_Operation) : result ML_Operation :=
  do ext_input <- get_input optree 0;
  do ext_size <- get_ext_size optree;
  if decide (ext_size < 0)%Z then Raise AssertionError
  else if decide (ext_size = 0)%Z then
    do _ <- report_warning optree;
    Ok ext_input
  else
    let precision := ML_StdLogicVectorFormat ext_size in
    do bit_size <- precision_bit_size get_bit_size ext_input;
    let ext_precision := ML_StdLogicVectorFormat (ext_size + bit_size) in
    Ok (Concatenation (Constant 0 (Some precision)) ext_input
          (Some ext_precision) (get_tag optree)).
End zext_modifier.

(** ** Matchers and operator generators *)

(** Modelled from the spec: the matcher classes of [generator_utility] are
    not in the sources. One position of a [type_custom_match] is
    [FSM(fmt)] (exact format) or [TCM(ML_StdLogicVectorFormat)] (format
    category; the only class the tables use). *)
Inductive type_matcher :=
  | FSM (fmt : ML_Format)
  | TCM_ML_StdLogicVectorFormat.

(** class Match custom std logic vector format *)
Definition MCSTDLOGICV : type_matcher := TCM_ML_StdLogicVectorFormat.

Inductive matcher :=
  | type_strict_match (formats : list ML_Format)
  | type_custom_match (matchers : list type_matcher).

(** Modelled from the spec: the operator classes of [generator_utility] and
    [complex_generator] are not in the sources. These are the generators
    that the embedded table entries build, with the arguments the tables
    pass; a keyword that a call leaves out is [None]. *)
Inductive generator :=
  | SymbolOperator (symbol : string) (arity : nat)
      (force_folding : option bool)
  | FunctionOperator (name : string) (arity : nat)
  | TemplateOperator (template : string) (arity : nat)
      (force_folding : option bool)
  | ComplexOperator (optree_modifier : ML_Operation → result ML_Operation)
  | IdentityOperator (output_precision : option ML_Format)
      (no_parenthesis : option bool).

(** the ordered (matcher, generator) rules of one group *)
Abbreviation rules := (list (matcher * generator)) (only parsing).
(** the ordered (applicability predicate, rules) groups of one specifier *)
Abbreviation groups := (list ((ML_Operation → bool) * rules)) (only parsing).
(** a generation table: operation class, then specifier, then groups *)
Abbreviation table :=
  (list (Op.t * list (option Specifier.t * groups))) (only parsing).

Definition formal_generation_table : table :=
  [ (Op.Addition,
     [ (None,
        [ (λ optree, true,
           [ (type_strict_match [ML_Integer; ML_Integer; ML_Integer],
              SymbolOperator "+" 2 (Some false)) ]) ]) ]);
    (Op.Subtraction,
     [ (None,
        [ (λ optree, true,
           [ (type_strict_match [ML_Integer; ML_Integer; ML_Integer],
              SymbolOperator "-" 2 (Some false)) ]) ]) ]);
    (Op.Multiplication,
     [ (None,
        [ (λ optree, true,
           [ (type_strict_match [ML_Integer; ML_Integer; ML_Integer],
              SymbolOperator "*" 2 (Some false)) ]) ]) ]) ].

(** A backend class: its name, its own [code_generation_table] class
    attribute (language to table) and the backend class it derives from
    among those of this file. *)
Local Unset Elimination Schemes.
Inductive Backend := MkBackend {
  target_name : string;
  code_generation_table : list (lang * table);
  specializes : option Backend
}.
Local Set Elimination Schemes.

Section vhdl_code_generation_table.
(** [build_simplified_operator_generation_nomap(precision_list, arity,
    operator, cond = ...)] from [generator_utility]: the rules it builds *)
Variable build_simplified_operator_generation_nomap :
  list ML_Format → nat → generator → (ML_Operation → bool) → rules.

(** The entries of [vhdl_code_generation_table] for the operation classes
    Addition, Subtraction, BitLogicNegate, Negation, LogicalAnd,
    Concatenation, BitLogicXor, BitLogicAnd, BitLogicOr, SignCast,
    TypeCast, BitLogicRightShift, BitLogicLeftShift and CountLeadingZeros,
    each with its groups and rules in the order of the source text. *)
Definition vhdl_code_generation_table : table :=
  [ (Op.Addition,
     [ (None,
        [ (exclude_std_logic,
           build_simplified_operator_generation_nomap
             [ML_Int8; ML_UInt8; ML_Int16; ML_UInt16; ML_Int32; ML_UInt32;
              ML_Int64; ML_UInt64; ML_Int128; ML_UInt128]
             2 (SymbolOperator "+" 2 (Some true)) (λ _, true));
          (include_std_logic,
           [ (type_custom_match [MCSTDLOGICV; MCSTDLOGICV; MCSTDLOGICV],
              SymbolOperator "+" 2 (Some true));
             (type_custom_match [MCSTDLOGICV; MCSTDLOGICV; FSM ML_StdLogic],
              SymbolOperator "+" 2 (Some true));
             (type_custom_match [MCSTDLOGICV; FSM ML_StdLogic; MCSTDLOGICV],
              SymbolOperator "+" 2 (Some true)) ]) ]) ]);
    (Op.Subtraction,
     [ (None,
        [ (exclude_std_logic,
           build_simplified_operator_generation_nomap
             [ML_Int8; ML_UInt8; ML_Int16; ML_UInt16; ML_Int32; ML_UInt32;
              ML_Int64; ML_UInt64; ML_Int128; ML_UInt128]
             2 (SymbolOperator "-" 2 (Some true)) (λ _, true));
          (include_std_logic,
           [ (type_custom_match [MCSTDLOGICV; MCSTDLOGICV; MCSTDLOGICV],
              SymbolOperator "-" 2 (Some true)) ]) ]) ]);
    (Op.BitLogicNegate,
     [ (None,
        [ (λ optree, true,
           [ (type_strict_match [ML_StdLogic; ML_StdLogic],
              FunctionOperator "not" 1);
             (type_custom_match [MCSTDLOGICV; MCSTDLOGICV],
              FunctionOperator "not" 1) ]) ]) ]);
    (Op.Negation,
     [ (None,
        [ (λ optree, true,
           [ (type_custom_match [MCSTDLOGICV; MCSTDLOGICV],
              ComplexOperator negation_modifer) ]) ]) ]);
    (Op.LogicalAnd,
     [ (None,
        [ (λ _, true,
           [ (type_strict_match [ML_Bool; ML_Bool; ML_Bool],
              SymbolOperator "and" 2 (Some true)) ]) ]) ]);
    (Op.Concatenation,
     [ (None,
        [ (λ _, true,
           [ (type_custom_match
                [TCM_ML_StdLogicVectorFormat; TCM_ML_StdLogicVectorFormat;
                 TCM_ML_StdLogicVectorFormat],
              SymbolOperator "&" 2 None);
             (type_custom_match
                [TCM_ML_StdLogicVectorFormat; FSM ML_StdLogic;
                 TCM_ML_StdLogicVectorFormat],
              SymbolOperator "&" 2 None);
             (type_custom_match
                [TCM_ML_StdLogicVectorFormat; TCM_ML_StdLogicVectorFormat;
                 FSM ML_StdLogic],
              SymbolOperator "&" 2 None) ]) ]) ]);
    (Op.BitLogicXor,
     [ (None,
        [ (λ optree, true,
           [ (type_strict_match [ML_StdLogic; ML_StdLogic; ML_StdLogic],
              SymbolOperator "xor" 2 None);
             (type_custom_match
                [TCM_ML_StdLogicVectorFormat; TCM_ML_StdLogicVectorFormat;
                 TCM_ML_StdLogicVectorFormat],
              SymbolOperator "xor" 2 None) ]) ]) ]);
    (Op.BitLogicAnd,
     [ (None,
        [ (λ optree, true,
           [ (type_strict_match [ML_StdLogic; ML_StdLogic; ML_StdLogic],
              SymbolOperator "and" 2 None);
             (type_custom_match
                [TCM_ML_StdLogicVectorFormat; TCM_ML_StdLogicVectorFormat;
                 TCM_ML_StdLogicVectorFormat],
              SymbolOperator "and" 2 None) ]) ]) ]);
    (Op.BitLogicOr,
     [ (None,
        [ (λ optree, true,
           [ (type_strict_match [ML_StdLogic; ML_StdLogic; ML_StdLogic],
              SymbolOperator "or" 2 None);
             (type_custom_match
                [TCM_ML_StdLogicVectorFormat; TCM_ML_StdLogicVectorFormat;
                 TCM_ML_StdLogicVectorFormat],
              SymbolOperator "or" 2 None) ]) ]) ]);
    (Op.SignCast,
     [ (Some Specifier.SignCast_Signed,
        [ (λ optree, true,
           [ (type_custom_match [MCSTDLOGICV; MCSTDLOGICV],
              FunctionOperator "signed" 1) ]) ]);
       (Some Specifier.SignCast_Unsigned,
        [ (λ optree, true,
           [ (type_custom_match [MCSTDLOGICV; MCSTDLOGICV],
              FunctionOperator "unsigned" 1) ]) ]) ]);
    (Op.TypeCast,
     [ (None,
        [ (λ optree, true,
           [ (type_custom_match [FSM ML_Binary16; TCM_ML_StdLogicVectorFormat],
              IdentityOperator (Some ML_Binary16) (Some true));
             (type_custom_match [FSM ML_Binary16; FSM ML_Binary16],
              IdentityOperator (Some ML_Binary16) (Some true));
             (type_custom_match [MCSTDLOGICV; FSM ML_Binary16],
              IdentityOperator None (Some true));

             (type_custom_match [FSM ML_Binary32; TCM_ML_StdLogicVectorFormat],
              IdentityOperator (Some ML_Binary32) (Some true));
             (type_custom_match [FSM ML_Binary32; FSM ML_Binary32],
              IdentityOperator (Some ML_Binary32) (Some true));
             (type_custom_match [MCSTDLOGICV; FSM ML_Binary32],
              IdentityOperator None (Some true));

             (type_custom_match [FSM ML_Binary64; TCM_ML_StdLogicVectorFormat],
              IdentityOperator (Some ML_Binary64) (Some true));
             (type_custom_match [FSM ML_Binary64; FSM ML_Binary64],
              IdentityOperator (Some ML_Binary64) (Some true));
             (type_custom_match [MCSTDLOGICV; FSM ML_Binary64],
              IdentityOperator None (Some true)) ]) ]) ]);
    (Op.BitLogicRightShift,
     [ (None,
        [ (λ optree, true,
           [ (type_custom_match [MCSTDLOGICV; MCSTDLOGICV; MCSTDLOGICV],
              TemplateOperator
                "std_logic_vector(shift_right(unsigned(%s), to_integer(unsigned(%s))))"
                2 (Some true)) ]) ]) ]);
    (Op.BitLogicLeftShift,
     [ (None,
        [ (λ optree, true,
           [ (type_custom_match [MCSTDLOGICV; MCSTDLOGICV; MCSTDLOGICV],
              TemplateOperator
                "std_logic_vector(shift_left(unsigned(%s), to_integer(unsigned(%s))))"
                2 (Some true)) ]) ]) ]);
    (Op.CountLeadingZeros,
     [ (None,
        [ (λ optree, true,
           [ (type_custom_match [MCSTDLOGICV; MCSTDLOGICV],
              FunctionOperator "count_leading_zeros" 1) ]) ]) ]) ].

(** ** Backends *)

Definition FormalBackend : Backend :=
  MkBackend "formal_backend"
    [ (VHDL_Code, formal_generation_table);
      (C_Code, formal_generation_table);
      (Gappa_Code, []) ]
    None.

Definition VHDLBackend : Backend :=
  MkBackend "vhdl_backend"
    [ (VHDL_Code, vhdl_code_generation_table);
      (Gappa_Code, []) ]
    (Some FormalBackend).
End vhdl_code_generation_table.

(** ** Resolution of a node to a generator *)

(** Modelled from the spec: the matcher classes of [generator_utility] are
    not in the sources. A [type_strict_match] holds when the formats of the
    node's result and operands equal, position by position, the formats it
    lists; a [type_custom_match] holds when every position satisfies its
    matcher, [FSM] by equality with its format and [TCM] by membership in
    its format class. *)
Definition type_matcher_holds (m : type_matcher) (fmt : option ML_Format)
    : bool :=
  match m with
  | FSM f => bool_decide (fmt = Some f)
  | TCM_ML_StdLogicVectorFormat => is_std_logic_vector fmt
  end.

Fixpoint all_positions {A B} (holds : A → B → bool) (ms : list A)
    (interface : list B) : bool :=
  match ms, interface with
  | [], [] => true
  | m :: ms', fmt :: interface' =>
      holds m fmt && all_positions holds ms' interface'
  | _, _ => false
  end.

Definition matcher_holds (m : matcher) (interface : list (option ML_Format))
    : bool :=
  match m with
  | type_strict_match formats =>
      all_positions (λ f fmt, bool_decide (fmt = Some f)) formats interface
  | type_custom_match matchers =>
      all_positions type_matcher_holds matchers interface
  end.

(** Modelled from the spec: the formats of a node's result and operands,
    on which the matchers are evaluated. *)
Definition interface (optree : ML_Operation) : list (option ML_Format) :=
  get_precision optree :: map get_precision (inputs optree).

(** Modelled from the spec: the dispatch of [abstract_backend] is not in the
    sources. Within a group the matchers are tried in order and the
    generator of the first one that holds is returned; [None] stands for
    the failure [NoMatchingRule]. *)
Fixpoint first_match (rs : rules) (interface : list (option ML_Format))
    : option generator :=
  match rs with
  | [] => None
  | (m, g) :: rs' =>
      if matcher_holds m interface then Some g else first_match rs' interface
  end.

(** Modelled from the spec: the group selected for a node is the first one
    whose applicability predicate holds on it. *)
Fixpoint select_group (gs : groups) (optree : ML_Operation) : option rules :=
  match gs with
  | [] => None
  | (applicable, rs) :: gs' =>
      if applicable optree then Some rs else select_group gs' optree
  end.

(** Modelled from the spec: resolution within the selected group only;
    when no matcher of that group holds, later groups are not tried. *)
Definition resolve_groups (gs : groups) (optree : ML_Operation)
    : option generator :=
  rs ← select_group gs optree; first_match rs (interface optree).

(** the groups a table holds for a class and specifier *)
Definition table_entry (t : table) (op : Op.t) (spec : option Specifier.t)
    : option groups :=
  specifiers ← Dict.get op t; Dict.get spec specifiers.

(** Modelled from the spec: look up the class, then the specifier, then
    resolve within the groups. *)
Definition resolve (t : table) (optree : ML_Operation) : option generator :=
  gs ← table_entry t (op_class optree) (specifier optree);
  resolve_groups gs optree.

(** the entry of a backend's own table for a language, class and specifier *)
Definition own_entry (b : Backend) (language : lang) (op : Op.t)
    (spec : option Specifier.t) : option groups :=
  t ← Dict.get language (code_generation_table b); table_entry t op spec.

(** Modelled from the spec: the entry requested from a backend is the one of
    its own table when present, else the one of the backend it
    specializes. *)
Fixpoint backend_entry (b : Backend) (language : lang) (op : Op.t)
    (spec : option Specifier.t) : option groups :=
  match own_entry b language op spec with
  | Some gs => Some gs
  | None =>
      match b with
      | MkBackend _ _ (Some general) => backend_entry general language op spec
      | MkBackend _ _ None => None
      end
  end.

Definition backend_resolve (b : Backend) (language : lang)
    (optree : ML_Operation) : option generator :=
  gs ← backend_entry b language (op_class optree) (specifier optree);
  resolve_groups gs optree.

(** * Vocabulary of the statements *)

(** ** Scopes, visible names and the lifetime of a scope *)

Module Import Scope.
Import MultiSymbolTable.

(** [reaches a m]: [a] is the scope [m] or one of the scopes reached
    through the [parent_tables] lists. *)
Inductive reaches : t → t → Prop :=
  | reaches_self m : reaches m m
  | reaches_parent a p m :
      p ∈ parent_tables m → reaches a p → reaches a m.

(** [name] is a key of one of the five category tables of [m] or of a
    scope reached from [m]. *)
Definition visible (σ : store) (m : t) (name : string) : Prop :=
  ∃ a tag r, reaches a m ∧ (tag, r) ∈ table_list a
             ∧ name ∈ Dict.keys (SymbolTable.table (deref σ r)).

(** two states of one scope object: only [prefix_index] may differ *)
Definition same_scope (m m' : t) : Prop :=
  table_list m = table_list m' ∧ parent_tables m = parent_tables m'.

(** One event in the life of the scope object [m] and of the store it
    lives in: a name request on [m], a declaration into any SymbolTable
    object of the store (a table of [m], a shared table, a table of
    another scope), or the creation of a SymbolTable object. *)
Inductive scope_step : store * t → store * t → Prop :=
  | step_get_free_name σ m prefix name m' :
      get_free_name σ m prefix = Some (name, m') →
      scope_step (σ, m) (σ, m')
  | step_declare_symbol σ m r name o :
      scope_step (σ, m)
        (update σ r (λ s, SymbolTable.declare_symbol s name o), m)
  | step_alloc σ m :
      scope_step (σ, m) ((alloc σ).1, m).

(** the four declaration entry points of a scope *)
Definition declarations (σ : store) (m : t) (name : string) (o : obj)
    : list store :=
  [ declare_var_name σ m name o; declare_cst_name σ m name o;
    declare_table_name σ m name o; declare_function_name σ m name o ].

End Scope.

(** ** Name requests, declaration texts *)

(** [CodeObject.get_free_var_name(var_type, prefix)] called once for each
    of the new variable objects [var_objects], every returned name being
    declared ([declare = True]) before the next request *)
Fixpoint request_names (σ : store) (c : CodeObject.t) (prefix : string)
    (var_objects : list obj) : option (list string) :=
  match var_objects with
  | [] => Some []
  | o :: var_objects' =>
      '(name, σ, c) ← CodeObject.get_free_var_name σ c prefix true o;
      names ← request_names σ c prefix var_objects';
      Some (name :: names)
  end.

(** the scope of a new code object, in a store without tables *)
Definition empty_scope (language : lang) : store * CodeObject.t :=
  CodeObject.init ∅ language [] [].



Fixpoint concat_texts (l : list string) : string :=
  match l with
  | [] => EmptyString
  | s :: l' => s +:+ concat_texts l'
  end.

(** first [Some] of a list of search results *)
Fixpoint first_some {A} (l : list (option A)) : option A :=
  match l with
  | [] => None
  | Some a :: _ => Some a
  | None :: l' => first_some l'
  end.





(** a generator that writes [name=object;] *)
Definition assign_generator : CodeGenerator :=
  MkCodeGenerator C_Code (λ symbol o, symbol +:+ "=" +:+ pretty o +:+ ";").


(** ** The table objects of a scope *)

(** the SymbolTable objects that a scope reads: its five category tables
    and those of the scopes reached through [parent_tables] *)
Fixpoint scope_refs (m : MultiSymbolTable.t) : list ref :=
  match m with
  | MultiSymbolTable.Make c f v p t parents _ =>
      [c; f; v; p; t] ++ concat (map scope_refs parents)
  end.

(** the table object that a scope holds for a category *)
Definition category_table (m : MultiSymbolTable.t) (tag : symbol_tag) : ref :=
  match tag with
  | ConstantSymbol => MultiSymbolTable.constant_table m
  | FunctionSymbol => MultiSymbolTable.function_table m
  | VariableSymbol => MultiSymbolTable.variable_table m
  | ProtectedSymbol => MultiSymbolTable.protected_table m
  | TableSymbol => MultiSymbolTable.table_table m
  end.

(** [r] is a SymbolTable object created between the stores [σ] and [σ'],
    and still empty in [σ'] *)
Definition created (σ σ' : store) (r : ref) : Prop :=
  (r ∉ dom σ) ∧ r ∈ dom σ' ∧ deref σ' r = SymbolTable.init.


(** the depth of a nested code: the number of open levels *)
Definition depth (nc : NestedCode.t) : nat := length (NestedCode.code_list nc).


(** * Properties *)

(** ** Dictionaries *)

Section dict_facts.
Context {K V : Type} `{EqDecision K}.
Implicit Types (d : list (K * V)) (k : K) (v : V).

Lemma dict_mem_true k d : Dict.mem k d = true ↔ k ∈ Dict.keys d.
Proof. unfold Dict.mem. by rewrite bool_decide_eq_true. Qed.

Lemma dict_mem_false k d : Dict.mem k d = false ↔ k ∉ Dict.keys d.
Proof. unfold Dict.mem. by rewrite bool_decide_eq_false. Qed.

Lemma dict_set_fresh k v d :
  k ∉ Dict.keys d → Dict.set k v d = d ++ [(k, v)].
Proof.
  induction d as [|[k' v'] d IH]; simpl; [done|].
  rewrite not_elem_of_cons. intros [Hne Hd].
  destruct (decide (k = k')) as [->|_]; [done|]. by rewrite IH.
Qed.

Lemma dict_keys_set k v d k' :
  k' ∈ Dict.keys (Dict.set k v d) ↔ k' = k ∨ k' ∈ Dict.keys d.
Proof.
  induction d as [|[k0 v0] d IH]; simpl.
  - rewrite list_elem_of_singleton, elem_of_nil. tauto.
  - destruct (decide (k = k0)) as [->|Hne]; simpl.
    + rewrite !elem_of_cons. tauto.
    + rewrite !elem_of_cons, IH. tauto.
Qed.

Lemma dict_keys_set_existing k v d :
  k ∈ Dict.keys d → Dict.keys (Dict.set k v d) = Dict.keys d.
Proof.
  induction d as [|[k0 v0] d IH]; simpl.
  - by intros ?%elem_of_nil.
  - destruct (decide (k = k0)) as [->|Hne]; simpl; [done|].
    intros [?|Hin]%elem_of_cons; [done|]. by rewrite IH.
Qed.

Lemma dict_get_set_eq k v d : Dict.get k (Dict.set k v d) = Some v.
Proof.
  induction d as [|[k0 v0] d IH]; simpl.
  - by rewrite decide_True.
  - destruct (decide (k = k0)) as [->|Hne]; simpl.
    + by rewrite decide_True.
    + by rewrite decide_False.
Qed.

Lemma dict_keys_set_mono k v d k' :
  k' ∈ Dict.keys d → k' ∈ Dict.keys (Dict.set k v d).
Proof. rewrite dict_keys_set. tauto. Qed.

End dict_facts.

(** ** The store *)

Lemma deref_update_eq (σ : store) r f : deref (update σ r f) r = f (deref σ r).
Proof. unfold deref, update. by rewrite lookup_insert_eq. Qed.

Lemma deref_update_ne (σ : store) r r' f :
  r ≠ r' → deref (update σ r f) r' = deref σ r'.
Proof. intros. unfold deref, update. by rewrite lookup_insert_ne. Qed.

(** ** Name formatting and the probing loop *)

Lemma fmt_name_inj prefix i j : fmt_name prefix i = fmt_name prefix j → i = j.
Proof.
  unfold fmt_name. intros Heq.
  apply (inj (String.app prefix)) in Heq. by apply (inj pretty) in Heq.
Qed.

Lemma probe_sound is_free prefix fuel i j :
  probe is_free prefix fuel i = Some j →
  is_free (fmt_name prefix j) = true ∧ i ≤ j
  ∧ ∀ k, i ≤ k < j → is_free (fmt_name prefix k) = false.
Proof.
  revert i. induction fuel as [|fuel IH]; intros i; simpl; [done|].
  destruct (is_free (fmt_name prefix i)) eqn:Hfree.
  - intros [= <-]. split_and!; [done|lia|]. intros k ?. lia.
  - intros Hp. destruct (IH _ Hp) as (Hj & Hle & Hlt).
    split_and!; [done|lia|]. intros k Hk.
    destruct (decide (k = i)) as [->|]; [done|]. apply Hlt. lia.
Qed.

Lemma probe_none is_free prefix fuel i :
  probe is_free prefix fuel i = None →
  ∀ k, i ≤ k < i + fuel → is_free (fmt_name prefix k) = false.
Proof.
  revert i. induction fuel as [|fuel IH]; intros i; simpl.
  - intros _ k ?. lia.
  - destruct (is_free (fmt_name prefix i)) eqn:Hfree; [done|].
    intros Hp k Hk. destruct (decide (k = i)) as [->|]; [done|].
    apply (IH _ Hp). lia.
Qed.

(** Pigeonhole: when all names that are not free lie in a list shorter than
    the fuel, the loop finds a free name. *)
Lemma probe_total is_free prefix (taken : list string) fuel i :
  (∀ name, is_free name = false → name ∈ taken) →
  length taken < fuel →
  is_Some (probe is_free prefix fuel i).
Proof.
  intros Htaken Hlen.
  destruct (probe is_free prefix fuel i) as [j|] eqn:Hp; [by eexists|].
  exfalso.
  pose proof (probe_none _ _ _ _ Hp) as Hnone.
  assert (fmt_name prefix <$> seq i fuel ⊆+ taken) as Hsub.
  { apply NoDup_submseteq.
    - apply NoDup_fmap_2; [|apply NoDup_seq].
      intros a b. apply fmt_name_inj.
    - intros name (k & -> & Hk)%list_elem_of_fmap.
      apply elem_of_seq in Hk. apply Htaken, Hnone. lia. }
  apply submseteq_length in Hsub.
  rewrite length_fmap, length_seq in Hsub. lia.
Qed.

Lemma SymbolTable_get_free_name_total (s : SymbolTable.t) prefix :
  is_Some (SymbolTable.get_free_name s prefix).
Proof.
  unfold SymbolTable.get_free_name.
  destruct (SymbolTable.is_free_name s prefix); [by eexists|].
  match goal with
  | |- context [probe ?f ?p ?n ?i] =>
      destruct (probe_total f p (Dict.keys (SymbolTable.table s)) n i)
        as [j ->]
  end; [| |by eexists].
  - intros name Hname. unfold SymbolTable.is_free_name in Hname.
    apply negb_false_iff in Hname. by apply dict_mem_true.
  - unfold Dict.keys. rewrite length_fmap. lia.
Qed.

(** ** Scopes: visibility of names *)

Module Import ScopeFacts.
Import MultiSymbolTable.

(** induction on a scope with its ancestors *)
Lemma scope_ind (P : t → Prop) :
  (∀ c f v p tt parents pi, Forall P parents →
     P (Make c f v p tt parents pi)) →
  ∀ m, P m.
Proof.
  intros Hstep. fix IH 1. intros [c f v p tt parents pi].
  apply Hstep. induction parents as [|a parents IHp]; constructor.
  - apply IH.
  - apply IHp.
Qed.

Lemma table_is_free_name_spec (s : SymbolTable.t) name :
  SymbolTable.is_free_name s name = true
  ↔ name ∉ Dict.keys (SymbolTable.table s).
Proof.
  unfold SymbolTable.is_free_name.
  rewrite negb_true_iff. apply dict_mem_false.
Qed.

Lemma is_free_name_unfold σ m name :
  is_free_name σ m name
  = forallb (λ '(_, r), SymbolTable.is_free_name (deref σ r) name)
            (table_list m)
    && forallb (λ table, is_free_name σ table name) (parent_tables m).
Proof. by destruct m. Qed.

Lemma visible_unfold σ m name :
  visible σ m name ↔
    (∃ tag r, (tag, r) ∈ table_list m
              ∧ name ∈ Dict.keys (SymbolTable.table (deref σ r)))
    ∨ (∃ p, p ∈ parent_tables m ∧ visible σ p name).
Proof.
  split.
  - intros (a & tag & r & Hreach & Htab & Hname).
    inversion Hreach as [|? p ? Hp Hreach']; subst.
    + left. eauto.
    + right. exists p. split; [done|]. exists a, tag, r. eauto.
  - intros [(tag & r & Htab & Hname)|(p & Hp & a & tag & r & Hr & Htab & Hname)].
    + exists m, tag, r. eauto using reaches_self.
    + exists a, tag, r. eauto using reaches_parent.
Qed.

Lemma forallb_false {A} (f : A → bool) (l : list A) :
  forallb f l = false ↔ ∃ x, x ∈ l ∧ f x = false.
Proof.
  induction l as [|a l IH]; simpl.
  - split; [done|]. intros (x & Hx & _). by apply elem_of_nil in Hx.
  - rewrite andb_false_iff, IH. split.
    + intros [Ha|(x & Hx & Hfx)]; [exists a|exists x];
        split; try done; by constructor.
    + intros (x & [->|Hx]%elem_of_cons & Hfx); eauto.
Qed.

Lemma is_free_name_false σ m name :
  is_free_name σ m name = false ↔ visible σ m name.
Proof.
  induction m as [c f v p tt parents pi IH] using scope_ind.
  rewrite is_free_name_unfold, visible_unfold, andb_false_iff, !forallb_false.
  rewrite Forall_forall in IH.
  split.
  - intros [([tag r] & Hin & Hf)|(a & Ha & Hf)].
    + left. exists tag, r. split; [done|].
      apply dict_mem_true. unfold SymbolTable.is_free_name in Hf.
      by apply negb_false_iff in Hf.
    + right. exists a. split; [done|]. by apply IH.
  - intros [(tag & r & Hin & Hname)|(a & Ha & Hvis)].
    + left. exists (tag, r). split; [done|].
      unfold SymbolTable.is_free_name. apply negb_false_iff.
      by apply dict_mem_true.
    + right. exists a. split; [done|]. by apply IH.
Qed.

Lemma is_free_name_spec σ m name :
  is_free_name σ m name = true ↔ ¬ visible σ m name.
Proof.
  rewrite <- is_free_name_false. by destruct (is_free_name σ m name).
Qed.

Lemma visible_names_spec σ m name :
  name ∈ visible_names σ m ↔ visible σ m name.
Proof.
  induction m as [c f v p tt parents pi IH] using scope_ind.
  rewrite visible_unfold. rewrite Forall_forall in IH. simpl.
  rewrite !elem_of_app, elem_of_nil. split.
  - intros [Hown|Hanc].
    + left.
      destruct Hown as [Hc|[Hf|[Hv|[Hp|[Ht|[]]]]]];
        [exists ConstantSymbol, c|exists FunctionSymbol, f
        |exists VariableSymbol, v|exists ProtectedSymbol, p
        |exists TableSymbol, tt];
        (split; [unfold table_list; simpl; repeat constructor|done]).
    + right. apply list_elem_of_In, in_concat in Hanc as (l & Hl & Hname).
      apply in_map_iff in Hl as (a & <- & Ha).
      apply list_elem_of_In in Ha, Hname.
      exists a. split; [done|]. by apply IH.
  - intros [(tag & r & Htab & Hname)|(a & Ha & Hvis)].
    + left. unfold table_list in Htab. simpl in Htab.
      repeat (apply elem_of_cons in Htab as [[= -> ->]|Htab]; [tauto|]).
      by apply elem_of_nil in Htab.
    + right. apply list_elem_of_In, in_concat.
      exists (visible_names σ a). split.
      * apply in_map, list_elem_of_In, Ha.
      * by apply list_elem_of_In, IH.
Qed.

(** The probing loop of [get_free_name] always finds a name: the bound on
    the number of tests is never reached. *)
Lemma get_free_name_total σ m prefix :
  is_Some (get_free_name σ m prefix).
Proof.
  unfold get_free_name.
  destruct (is_free_name σ m prefix); [by eexists|].
  match goal with
  | |- context [probe ?f ?p ?n ?i] =>
      destruct (probe_total f p (visible_names σ m) n i) as [j ->]
  end; [| |by eexists].
  - intros name Hname. by apply visible_names_spec, is_free_name_false.
  - lia.
Qed.

Lemma set_prefix_index_same_scope m prefix i :
  same_scope m (set_prefix_index m prefix i).
Proof. by destruct m. Qed.

(** What a call returns: either the bare prefix, which was free, with the
    counter set to 0; or [prefix ++ j] for the least [j], counted from the
    successor of the recorded index (from 0 when none is recorded), whose
    name is free. *)
Lemma get_free_name_inv σ m prefix name m' :
  get_free_name σ m prefix = Some (name, m') →
  (is_free_name σ m prefix = true ∧ name = prefix
   ∧ m' = set_prefix_index m prefix 0)
  ∨ (is_free_name σ m prefix = false ∧
     ∃ j, name = fmt_name prefix j ∧ m' = set_prefix_index m prefix j
          ∧ is_free_name σ m (fmt_name prefix j) = true
          ∧ let start := match prefix_index m !! prefix with
                         | Some i => i + 1
                         | None => 0
                         end in
            start ≤ j
            ∧ ∀ k, start ≤ k < j →
                   is_free_name σ m (fmt_name prefix k) = false).
Proof.
  unfold get_free_name.
  destruct (is_free_name σ m prefix) eqn:Hfree.
  - intros [= <- <-]. by left.
  - intros Hp. right. split; [done|].
    apply bind_Some in Hp as (j & Hprobe & [= <- <-]).
    apply probe_sound in Hprobe as (Hj & Hle & Hlt).
    exists j. by split_and!.
Qed.

Lemma get_free_name_is_free σ m prefix name m' :
  get_free_name σ m prefix = Some (name, m') →
  is_free_name σ m name = true.
Proof.
  intros [(? & -> & _)|(_ & j & -> & _ & ? & _)]%get_free_name_inv; done.
Qed.

Lemma get_free_name_same_scope σ m prefix name m' :
  get_free_name σ m prefix = Some (name, m') → same_scope m m'.
Proof.
  intros [(_ & _ & ->)|(_ & j & _ & -> & _)]%get_free_name_inv;
    apply set_prefix_index_same_scope.
Qed.

End ScopeFacts.

(** ** The lifetime of a scope *)

Module Import LifetimeFacts.
Import MultiSymbolTable.

Lemma visible_same_scope σ m m' name :
  same_scope m m' → visible σ m name → visible σ m' name.
Proof.
  intros [Htab Hpar]. rewrite !visible_unfold. by rewrite Htab, Hpar.
Qed.

Lemma deref_alloc (σ : store) r : deref (alloc σ).1 r = deref σ r.
Proof.
  unfold deref, alloc. simpl.
  destruct (decide (fresh (dom σ) = r)) as [<-|Hne].
  - rewrite lookup_insert_eq.
    by rewrite (proj1 (not_elem_of_dom σ _) (is_fresh (dom σ))).
  - by rewrite lookup_insert_ne.
Qed.

Lemma deref_declare_keys (σ : store) r name o r' name' :
  name' ∈ Dict.keys (SymbolTable.table (deref σ r')) →
  name' ∈ Dict.keys (SymbolTable.table
    (deref (update σ r (λ s, SymbolTable.declare_symbol s name o)) r')).
Proof.
  intros Hin. destruct (decide (r = r')) as [<-|Hne].
  - rewrite deref_update_eq. simpl. by apply dict_keys_set_mono.
  - by rewrite deref_update_ne.
Qed.

(** names only accumulate: there is no operation that removes one *)
Lemma visible_store_mono (σ σ' : store) m name :
  (∀ r n, n ∈ Dict.keys (SymbolTable.table (deref σ r)) →
          n ∈ Dict.keys (SymbolTable.table (deref σ' r))) →
  visible σ m name → visible σ' m name.
Proof.
  intros Hmono (a & tag & r & Hreach & Htab & Hname).
  exists a, tag, r. eauto.
Qed.

Lemma scope_step_visible σ m σ' m' name :
  scope_step (σ, m) (σ', m') → visible σ m name → visible σ' m' name.
Proof.
  inversion 1; subst; intros Hvis.
  - eapply visible_same_scope; [|done]. by eapply get_free_name_same_scope.
  - eapply visible_store_mono; [|done]. intros. by apply deref_declare_keys.
  - eapply visible_store_mono; [|done]. intros r n.
    by rewrite <- (deref_alloc σ r).
Qed.

Lemma lifetime_visible s s' name :
  rtc scope_step s s' → visible s.1 s.2 name → visible s'.1 s'.2 name.
Proof.
  induction 1 as [s|[σ m] [σ' m'] s'' Hstep _ IH]; [done|].
  intros Hvis. apply IH. simpl in *. by eapply scope_step_visible.
Qed.

Lemma declared_visible σ m name o σ' :
  σ' ∈ declarations σ m name o → visible σ' m name.
Proof.
  unfold declarations. rewrite !elem_of_cons, elem_of_nil.
  intros [->|[->|[->|[->|[]]]]];
    [exists m, VariableSymbol, (variable_table m)
    |exists m, ConstantSymbol, (constant_table m)
    |exists m, TableSymbol, (table_table m)
    |exists m, FunctionSymbol, (function_table m)];
    (split_and!;
     [apply reaches_self
     |unfold table_list; repeat constructor
     |unfold declare_var_name, declare_cst_name, declare_table_name,
        declare_function_name;
      rewrite deref_update_eq; simpl; apply dict_keys_set; by left]).
Qed.
End LifetimeFacts.

(** ** Free names *)

(** C1, as stated, fails: three requests with prefix "tmp" in an empty
    scope, each name declared before the next request, do not yield
    "tmp", "tmp0", "tmp1". *)
Lemma request_tmp_three_times_not_tmp0 :
  (let '(σ, c) := empty_scope C_Code in
   request_names σ c "tmp" [0; 1; 2])
  ≠ Some ["tmp"; "tmp0"; "tmp1"].
Proof. vm_compute. discriminate. Qed.

(** C1, amended: three requests with prefix "tmp" in an empty scope, each
    name declared before the next request, yield "tmp", "tmp1", "tmp2"
    (on a scope of a code object as on a single SymbolTable).
    In general, when the bare prefix is free the request returns it and
    sets the prefix's counter to 0; the next request for that prefix, made
    once the prefix is taken, probes from index 1 (the recorded index plus
    one) and returns the least index from 1 on whose name is free, so that
    index 0 is skipped. *)
Theorem get_free_name_after_bare_prefix :
  (∀ language o1 o2 o3,
     (let '(σ, c) := empty_scope language in
      request_names σ c "tmp" [o1; o2; o3])
     = Some ["tmp"; "tmp1"; "tmp2"])
  ∧ (∀ o1 o2 : obj,
       ∃ s1 s2 s3,
         SymbolTable.get_free_name SymbolTable.init "tmp" = Some ("tmp", s1)
         ∧ SymbolTable.get_free_name
             (SymbolTable.declare_symbol s1 "tmp" o1) "tmp"
           = Some ("tmp1", s2)
         ∧ SymbolTable.get_free_name
             (SymbolTable.declare_symbol s2 "tmp1" o2) "tmp"
           = Some ("tmp2", s3))
  ∧ (∀ σ m prefix,
       MultiSymbolTable.is_free_name σ m prefix = true →
       ∃ m1,
         MultiSymbolTable.get_free_name σ m prefix = Some (prefix, m1)
         ∧ MultiSymbolTable.prefix_index m1 !! prefix = Some 0
         ∧ ∀ σ',
             MultiSymbolTable.is_free_name σ' m1 prefix = false →
             ∃ j,
               MultiSymbolTable.get_free_name σ' m1 prefix
               = Some (fmt_name prefix j,
                       MultiSymbolTable.set_prefix_index m1 prefix j)
               ∧ 1 ≤ j
               ∧ MultiSymbolTable.is_free_name σ' m1 (fmt_name prefix j) = true
               ∧ ∀ k, 1 ≤ k < j →
                   MultiSymbolTable.is_free_name σ' m1 (fmt_name prefix k)
                   = false).
Proof.
  split_and!.
  - intros language o1 o2 o3. vm_compute. reflexivity.
  - intros o1 o2. do 3 eexists. split_and!; vm_compute; reflexivity.
  - intros σ m prefix Hfree.
    exists (MultiSymbolTable.set_prefix_index m prefix 0). split_and!.
    + unfold MultiSymbolTable.get_free_name. by rewrite Hfree.
    + destruct m. simpl. apply lookup_insert_eq.
    + intros σ' Htaken.
      destruct (get_free_name_total σ' (MultiSymbolTable.set_prefix_index m prefix 0)
                  prefix) as [[name m2] Hget].
      pose proof Hget as Hinv. apply get_free_name_inv in Hinv.
      destruct Hinv as [(Hf & _)|(_ & j & -> & -> & Hj & Hstart)];
        [congruence|].
      assert (MultiSymbolTable.prefix_index
                (MultiSymbolTable.set_prefix_index m prefix 0) !! prefix
              = Some 0) as Hidx by (destruct m; simpl; apply lookup_insert_eq).
      rewrite Hidx in Hstart. simpl in Hstart. destruct Hstart as [Hle Hlt].
      exists j. split_and!; [done|lia|done|]. intros k Hk. apply Hlt. lia.
Qed.

Lemma get_free_name_after_bare_prefix_witness :
  let σ := (empty_scope C_Code).1 in
  let m := CodeObject.symbol_table (empty_scope C_Code).2 in
  ∃ m1 j,
    MultiSymbolTable.get_free_name σ m "tmp" = Some ("tmp", m1)
    ∧ MultiSymbolTable.get_free_name
        (MultiSymbolTable.declare_var_name σ m1 "tmp" 0) m1 "tmp"
      = Some (fmt_name "tmp" j, MultiSymbolTable.set_prefix_index m1 "tmp" j)
    ∧ 1 ≤ j.
Proof.
  intros σ m.
  destruct (proj2 (proj2 get_free_name_after_bare_prefix) σ m "tmp")
    as (m1 & Hget & Hidx & Hnext).
  - vm_compute. reflexivity.
  - assert (m1 = MultiSymbolTable.set_prefix_index m "tmp" 0) as ->.
    { vm_compute in Hget. vm_compute. congruence. }
    destruct (Hnext (MultiSymbolTable.declare_var_name σ
                       (MultiSymbolTable.set_prefix_index m "tmp" 0) "tmp" 0))
      as (j & Hget' & Hj & _).
    + vm_compute. reflexivity.
    + exists (MultiSymbolTable.set_prefix_index m "tmp" 0), j.
      split_and!; assumption.
Defined.

(** C2, as stated, fails: in a new scope two successive requests with
    prefix "tmp", the first name not being declared, both return "tmp". *)
Lemma get_free_name_twice_undeclared :
  let σ := (empty_scope C_Code).1 in
  let m := CodeObject.symbol_table (empty_scope C_Code).2 in
  let m1 := MultiSymbolTable.set_prefix_index m "tmp" 0 in
  MultiSymbolTable.get_free_name σ m "tmp" = Some ("tmp", m1)
  ∧ MultiSymbolTable.get_free_name σ m1 "tmp" = Some ("tmp", m1).
Proof. split; vm_compute; reflexivity. Qed.

(** C2, amended: every request returns a name, and that name is, at call
    time, a key of none of the five category tables of the scope nor of any
    scope reached through its parent tables. Once the returned name has been
    declared in the scope (as a variable, constant, table or function), no
    later request made on that scope, whatever its prefix and whatever
    happened to the scope and the store in between, returns that name
    again. *)
Theorem get_free_name_fresh :
  ∀ σ m prefix,
    ∃ name m',
      MultiSymbolTable.get_free_name σ m prefix = Some (name, m')
      ∧ ¬ visible σ m name
      ∧ ∀ o σ1 σ2 m2 prefix2 name2 m3,
          σ1 ∈ declarations σ m' name o →
          rtc scope_step (σ1, m') (σ2, m2) →
          MultiSymbolTable.get_free_name σ2 m2 prefix2 = Some (name2, m3) →
          name2 ≠ name.
Proof.
  intros σ m prefix.
  destruct (get_free_name_total σ m prefix) as [[name m'] Hget].
  exists name, m'. split_and!; [done| |].
  - by eapply is_free_name_spec, get_free_name_is_free.
  - intros o σ1 σ2 m2 prefix2 name2 m3 Hdecl Hlife Hget2 ->.
    apply get_free_name_is_free, is_free_name_spec in Hget2.
    apply Hget2.
    apply (lifetime_visible (σ1, m') (σ2, m2) name Hlife). simpl.
    by eapply declared_visible.
Qed.

Lemma get_free_name_fresh_witness :
  let σ := (empty_scope C_Code).1 in
  let m := CodeObject.symbol_table (empty_scope C_Code).2 in
  let m1 := MultiSymbolTable.set_prefix_index m "tmp" 0 in
  let σ1 := MultiSymbolTable.declare_var_name σ m1 "tmp" 0 in
  MultiSymbolTable.get_free_name σ m "tmp" = Some ("tmp", m1)
  ∧ MultiSymbolTable.get_free_name σ1 m1 "tmp"
    = Some ("tmp1", MultiSymbolTable.set_prefix_index m1 "tmp" 1)
  ∧ "tmp1" ≠ "tmp".
Proof.
  intros σ m m1 σ1.
  assert (MultiSymbolTable.get_free_name σ m "tmp" = Some ("tmp", m1)) as H0
    by (vm_compute; reflexivity).
  assert (MultiSymbolTable.get_free_name σ1 m1 "tmp"
          = Some ("tmp1", MultiSymbolTable.set_prefix_index m1 "tmp" 1)) as H1
    by (vm_compute; reflexivity).
  split_and!; [exact H0|exact H1|].
  destruct (get_free_name_fresh σ m "tmp") as (name & m' & Hget & _ & Hlater).
  rewrite H0 in Hget. injection Hget as <- <-.
  apply (Hlater 0 σ1 σ1 m1 "tmp" "tmp1"
           (MultiSymbolTable.set_prefix_index m1 "tmp" 1)).
  - unfold declarations. apply list_elem_of_here.
  - apply rtc_refl.
  - exact H1.
Defined.

(** ** Strings and declaration blocks *)

Lemma append_nil_l (s : string) : EmptyString +:+ s = s.
Proof. reflexivity. Qed.

Lemma append_cons a (s1 s2 : string) :
  String a s1 +:+ s2 = String a (s1 +:+ s2).
Proof. reflexivity. Qed.

Lemma append_assoc (s1 s2 s3 : string) : (s1 +:+ s2) +:+ s3 = s1 +:+ s2 +:+ s3.
Proof.
  induction s1 as [|a s1 IH]; [done|]. rewrite !append_cons. by rewrite IH.
Qed.

Lemma append_nil_r (s : string) : s +:+ EmptyString = s.
Proof. induction s as [|a s IH]; [done|]. rewrite append_cons. by rewrite IH. Qed.




(** ** Identity search *)

Section has_definition.
Import MultiSymbolTable.

Lemma has_definition_in_None d (o : obj) :
  SymbolTable.has_definition_in d o = None ↔ o ∉ d.*2.
Proof.
  induction d as [|[key o'] d IH]; simpl.
  - split; [intros _; apply not_elem_of_nil|done].
  - rewrite not_elem_of_cons. destruct (decide (o = o')) as [->|Hne].
    + split; [done|]. intros [? _]. done.
    + rewrite IH. tauto.
Qed.

Lemma has_definition_in_Some d (o : obj) key :
  SymbolTable.has_definition_in d o = Some key → (key, o) ∈ d.
Proof.
  induction d as [|[key' o'] d IH]; simpl; [done|].
  destruct (decide (o = o')) as [->|Hne].
  - intros [= ->]. apply list_elem_of_here.
  - intros Hd. apply list_elem_of_further. by apply IH.
Qed.


Lemma table_has_definition_unfold σ m (o : obj) :
  table_has_definition σ m o
  = match SymbolTable.has_definition (deref σ (table_table m)) o with
    | Some table_key => Some table_key
    | None =>
        first_some (map (λ table, table_has_definition σ table o)
                        (parent_tables m))
    end.
Proof.
  destruct m as [c f v p tt parents pi]. simpl.
  destruct (SymbolTable.has_definition (deref σ tt) o); [done|].
  induction parents as [|a parents IH]; simpl; [done|].
  destruct (table_has_definition σ a o); [done|]. apply IH.
Qed.

Lemma first_some_is_Some {A} (l : list (option A)) x :
  x ∈ l → is_Some x → is_Some (first_some l).
Proof.
  intros Hin [a ->]. induction l as [|[b|] l IH]; simpl.
  - by apply elem_of_nil in Hin.
  - by eexists.
  - apply elem_of_cons in Hin as [?|Hin]; [done|]. by apply IH.
Qed.

Lemma first_some_Some {A} (l : list (option A)) a :
  first_some l = Some a → Some a ∈ l.
Proof.
  induction l as [|[b|] l IH]; simpl; [done| |].
  - intros [= ->]. apply list_elem_of_here.
  - intros Hl. apply list_elem_of_further. by apply IH.
Qed.

(** the search finds an object defined in the table category of the scope
    or of any scope reached through the parent tables *)
Lemma table_has_definition_reaches σ a m (o : obj) :
  reaches a m →
  is_Some (SymbolTable.has_definition (deref σ (table_table a)) o) →
  is_Some (table_has_definition σ m o).
Proof.
  induction 1 as [m|a p m Hp Hreach IH]; intros Hdef;
    rewrite table_has_definition_unfold.
  - destruct Hdef as [key ->]. by eexists.
  - destruct (SymbolTable.has_definition (deref σ (table_table m)) o);
      [by eexists|].
    eapply first_some_is_Some; [|by apply IH].
    apply list_elem_of_In, in_map_iff. exists p. split; [done|].
    by apply list_elem_of_In.
Qed.

(** a name found by the search is bound to that very object in the table
    category of the scope or of a scope reached from it *)
Lemma table_has_definition_sound σ m (o : obj) key :
  table_has_definition σ m o = Some key →
  ∃ a, reaches a m
       ∧ (key, o) ∈ SymbolTable.table (deref σ (table_table a)).
Proof.
  induction m as [c f v p tt parents pi IH] using scope_ind.
  rewrite table_has_definition_unfold. simpl.
  destruct (SymbolTable.has_definition (deref σ tt) o) as [k|] eqn:Hown.
  - intros [= ->]. eexists. split; [apply reaches_self|]. simpl.
    by apply has_definition_in_Some.
  - intros Hfirst%first_some_Some.
    apply list_elem_of_In, in_map_iff in Hfirst as (a & Ha & Hin).
    apply list_elem_of_In in Hin.
    rewrite Forall_forall in IH.
    destruct (IH a Hin Ha) as (b & Hreach & Hb).
    exists b. split; [|done]. by eapply reaches_parent.
Qed.
End has_definition.

(** ** Declaring a table object twice *)




(** ** Order of the emitted declarations *)

Lemma length_append (s1 s2 : string) :
  String.length (s1 +:+ s2) = String.length s1 + String.length s2.
Proof.
  induction s1 as [|a s1 IH]; [done|].
  rewrite append_cons. simpl. by rewrite IH.
Qed.



(** declaring a name again keeps the order of the names and replaces the
    entity bound to the name *)
Lemma declare_symbol_redeclared (s : SymbolTable.t) name (o : obj) :
  name ∈ Dict.keys (SymbolTable.table s) →
  Dict.keys (SymbolTable.table (SymbolTable.declare_symbol s name o))
  = Dict.keys (SymbolTable.table s)
  ∧ Dict.get name (SymbolTable.table (SymbolTable.declare_symbol s name o))
    = Some o.
Proof.
  intros Hin. simpl. split.
  - by apply dict_keys_set_existing.
  - apply dict_get_set_eq.
Qed.






Lemma generate_declarations_foldl σ code_generator
    (exclusion_list : list symbol_tag) (l : list (symbol_tag * nat)) acc :
  foldl (λ code_object '(table_tag, r),
           if bool_decide (table_tag ∈ exclusion_list) then code_object
           else code_object
                  +:+ SymbolTable.generate_declaration (deref σ r)
                        code_generator) acc l
  = acc +:+ concat_texts
      (map (λ '(table_tag, r),
              if bool_decide (table_tag ∈ exclusion_list) then EmptyString
              else SymbolTable.generate_declaration (deref σ r) code_generator)
           l).
Proof.
  revert acc. induction l as [|[tag r] l IH]; intros acc; simpl.
  - by rewrite append_nil_r.
  - rewrite IH. destruct (bool_decide (tag ∈ exclusion_list)).
    + done.
    + by rewrite append_assoc.
Qed.

(** the declarations of a scope are the blocks of its non-excluded
    categories, in the order of [table_list] *)
Lemma generate_declarations_blocks σ m code_generator exclusion_list :
  MultiSymbolTable.generate_declarations σ m code_generator exclusion_list
  = concat_texts
      (map (λ '(table_tag, r),
              if bool_decide (table_tag ∈ exclusion_list) then EmptyString
              else SymbolTable.generate_declaration (deref σ r) code_generator)
           (MultiSymbolTable.table_list m)).
Proof.
  exact (generate_declarations_foldl σ code_generator exclusion_list
           (MultiSymbolTable.table_list m) EmptyString).
Qed.



(** *** Tables built by a sequence of declarations *)

Lemma dict_get_set {K V} `{EqDecision K} (k : K) (v : V) d k' :
  Dict.get k' (Dict.set k v d)
  = if decide (k' = k) then Some v else Dict.get k' d.
Proof.
  induction d as [|[k0 v0] d IH]; simpl.
  - by destruct (decide (k' = k)).
  - destruct (decide (k = k0)) as [->|Hne]; simpl.
    + by destruct (decide (k' = k0)).
    + rewrite IH. destruct (decide (k' = k0)) as [->|]; [|done].
      by rewrite decide_False.
Qed.

Lemma dict_get_lookup {K V} `{EqDecision K} (d : list (K * V)) p k v :
  NoDup (Dict.keys d) → d !! p = Some (k, v) → Dict.get k d = Some v.
Proof.
  revert p. induction d as [|[k0 v0] d IH]; intros p Hnodup Hp; [done|].
  simpl in Hnodup. apply NoDup_cons in Hnodup as [Hk0 Hnodup].
  destruct p as [|p]; simpl in *.
  - injection Hp as -> ->. by rewrite decide_True.
  - destruct (decide (k = k0)) as [->|Hne]; [|by eapply IH].
    exfalso. apply Hk0. apply list_elem_of_fmap. exists (k0, v).
    split; [done|]. by eapply list_elem_of_lookup_2.
Qed.









(** ** A constant declared in a nested scope that shares the constant
       category *)

(** with [headers = True] the text starts with the header and two
    newlines, so that a newline always follows the declarations *)
Lemma CodeObject_get_headers σ c vi code_generator static_cst static_table
    skip_function :
  CodeObject.get σ c vi code_generator static_cst static_table true
    skip_function
  = CodeObject.generate_header_code c vi true +:+ nl +:+ nl
    +:+ MultiSymbolTable.generate_declarations σ (CodeObject.symbol_table c)
          code_generator
          ((if static_cst then [ConstantSymbol] else [])
           ++ (if static_table then [TableSymbol] else [])
           ++ (if skip_function then [FunctionSymbol] else []))
    +:+ nl +:+ CodeObject.expanded_code c.
Proof.
  unfold CodeObject.get. rewrite append_nil_l.
  destruct (decide _) as [Hempty|_].
  - apply (f_equal String.length) in Hempty.
    rewrite !length_append in Hempty. simpl in Hempty. lia.
  - by rewrite !append_assoc.
Qed.

Lemma NestedCode_get_top σ nc vi code_generator c rest :
  NestedCode.code_list nc = c :: rest →
  NestedCode.get σ nc vi code_generator
  = Ok (CodeObject.get σ c vi code_generator false false true false).
Proof. unfold NestedCode.get. by intros ->. Qed.

(** C7: in a new NestedCode built with [static_cst = True] (every scope
    then shares the one static constant table), open a nested level,
    declare a constant in it and close the level. The nested scope and its
    parent have the same constant table; after the close that table holds
    exactly one entry, the declared constant; the text of the closed level
    carries no declaration, and the final text is the header, the single
    declaration of the constant, and the (empty) block. *)
Theorem shared_constant_declared_once :
  ∀ code_generator vi static_table (cst_object : obj) prefix,
    let s0 := NestedCode.init ∅ code_generator true static_table in
    ∃ σ1 nc1 σ2 nc2 nc3 nested parent main,
      NestedCode.open_level s0.1 s0.2 = Ok (σ1, nc1)
      ∧ NestedCode.declare_cst σ1 nc1 cst_object prefix
        = Ok (Some (prefix, σ2, nc2))
      ∧ NestedCode.code_list nc2 = [nested; parent]
      ∧ MultiSymbolTable.constant_table (CodeObject.symbol_table nested)
        = MultiSymbolTable.constant_table (CodeObject.symbol_table parent)
      ∧ NestedCode.close_level σ2 nc2 vi nl = Ok nc3
      ∧ NestedCode.code_list nc3 = [main]
      ∧ CodeObject.symbol_table main = CodeObject.symbol_table parent
      ∧ SymbolTable.table
          (deref σ2 (MultiSymbolTable.constant_table
                       (CodeObject.symbol_table main)))
        = [(prefix, cst_object)]
      ∧ CodeObject.get σ2 nested vi code_generator true static_table false true
        = EmptyString
      ∧ NestedCode.get σ2 nc3 vi code_generator
        = Ok (CodeObject.generate_header_code main vi true +:+ nl +:+ nl
              +:+ cg_generate_declaration code_generator prefix cst_object
              +:+ nl +:+ "{" +:+ nl +:+ "}" +:+ nl).
Proof.
  intros code_generator vi static_table cst_object prefix s0.
  destruct static_table;
    do 8 eexists; (split_and!; [vm_compute; reflexivity..|]);
    (erewrite NestedCode_get_top by (vm_compute; reflexivity));
    rewrite CodeObject_get_headers, generate_declarations_blocks;
    cbv -[String.append cg_generate_declaration CodeObject.generate_header_code];
    by rewrite ?append_nil_l, ?append_nil_r.
Qed.

(** ** [MultiSymbolTable.is_empty] *)

(** C9: [is_empty] never returns a value: for every MultiSymbolTable,
    whatever its tables hold, it raises [TypeError]. The reduction runs
    over the five tag classes, without initial accumulator, and its first
    step applies [len] to a class object. *)
Theorem is_empty_raises_TypeError :
  ∀ self : MultiSymbolTable.t,
    MultiSymbolTable.is_empty self = Raise TypeError.
Proof. intros self. reflexivity. Qed.

(** ** Matchers are tried in declared order *)

Lemma first_match_Some rs ifc g :
  first_match rs ifc = Some g ↔
  ∃ pre m post,
    rs = pre ++ (m, g) :: post
    ∧ matcher_holds m ifc = true
    ∧ Forall (λ r, matcher_holds r.1 ifc = false) pre.
Proof.
  induction rs as [|[m' g'] rs IH]; simpl.
  - split; [done|]. intros (pre & m & post & Heq & _). by destruct pre.
  - destruct (matcher_holds m' ifc) eqn:Hm.
    + split.
      * intros [= ->]. exists [], m', rs. by split_and!.
      * intros (pre & m & post & Heq & Hholds & Hpre).
        destruct pre as [|[m0 g0] pre]; simpl in Heq.
        -- by injection Heq as _ ->.
        -- injection Heq as -> -> _. apply Forall_cons in Hpre as [Hm0 _].
           simpl in Hm0. congruence.
    + rewrite IH. split.
      * intros (pre & m & post & -> & Hholds & Hpre).
        exists ((m', g') :: pre), m, post. split_and!; [done|done|].
        by constructor.
      * intros (pre & m & post & Heq & Hholds & Hpre).
        destruct pre as [|[m0 g0] pre]; simpl in Heq.
        -- injection Heq as -> _ _. congruence.
        -- injection Heq as _ _ ->. apply Forall_cons in Hpre as [_ Hpre].
           by exists pre, m, post.
Qed.

Lemma first_match_None rs ifc :
  first_match rs ifc = None ↔ Forall (λ r, matcher_holds r.1 ifc = false) rs.
Proof.
  induction rs as [|[m g] rs IH]; simpl.
  - split; [constructor|done].
  - destruct (matcher_holds m ifc) eqn:Hm.
    + split; [done|]. intros [Hm' _]%Forall_cons. simpl in Hm'. congruence.
    + rewrite IH. split; [by constructor|]. by intros [_ ?]%Forall_cons.
Qed.

(** C5: within the group selected for a node, resolution returns the
    generator of the first rule, in the declared order of the group, whose
    matcher holds on the formats of the node's result and operands, and it
    fails exactly when no matcher of the group holds. In particular, when an
    exact-format matcher and a category-format matcher both hold, the rule
    declared earlier gives the generator, whichever kind it is. *)
Theorem first_match_declared_order :
  ∀ (gs : groups) (rs : rules) (optree : ML_Operation),
    select_group gs optree = Some rs →
    (∀ g, resolve_groups gs optree = Some g ↔
          ∃ pre m post,
            rs = pre ++ (m, g) :: post
            ∧ matcher_holds m (interface optree) = true
            ∧ Forall (λ r, matcher_holds r.1 (interface optree) = false) pre)
    ∧ (resolve_groups gs optree = None ↔
       Forall (λ r, matcher_holds r.1 (interface optree) = false) rs)
    ∧ (∀ pre m1 g1 mid m2 g2 post,
         rs = pre ++ (m1, g1) :: mid ++ (m2, g2) :: post →
         Forall (λ r, matcher_holds r.1 (interface optree) = false) pre →
         matcher_holds m1 (interface optree) = true →
         matcher_holds m2 (interface optree) = true →
         resolve_groups gs optree = Some g1).
Proof.
  intros gs rs optree Hsel. unfold resolve_groups. rewrite Hsel. simpl.
  split_and!.
  - intros g. apply first_match_Some.
  - apply first_match_None.
  - intros pre m1 g1 mid m2 g2 post -> Hpre Hm1 _.
    apply first_match_Some. by exists pre, m1, (mid ++ (m2, g2) :: post).
Qed.

(** The group of all rules of BitLogicNegate, on a node whose result and
    operand are bit vectors: the exact-format rule declared first does not
    hold, the category rule declared second gives the generator. *)
Lemma first_match_declared_order_witness :
  let optree :=
    BitLogicNegate
      (Node Op.Constant None [] (Some (ML_StdLogicVectorFormat 8)) None None
         (Some 5%Z))
      (Some (ML_StdLogicVectorFormat 8)) in
  resolve (vhdl_code_generation_table (λ _ _ _ _, [])) optree
  = Some (FunctionOperator "not" 1).
Proof.
  intros optree.
  set (rs := [ (type_strict_match [ML_StdLogic; ML_StdLogic],
                FunctionOperator "not" 1);
               (type_custom_match [MCSTDLOGICV; MCSTDLOGICV],
                FunctionOperator "not" 1) ]).
  set (gs := [ (λ _ : ML_Operation, true, rs) ]).
  change (resolve_groups gs optree = Some (FunctionOperator "not" 1)).
  apply (proj1 (first_match_declared_order gs rs optree eq_refl)).
  exists [ (type_strict_match [ML_StdLogic; ML_StdLogic],
            FunctionOperator "not" 1) ],
         (type_custom_match [MCSTDLOGICV; MCSTDLOGICV]), [].
  split_and!; [reflexivity|reflexivity|].
  constructor; [reflexivity|constructor].
Defined.

(** The rules cited from the source, evaluated: a TypeCast to ML_Binary32 of
    a bit vector takes the fourth rule of its group, a TypeCast of an
    ML_Binary16 value to a bit vector the third, and an Addition of a bit
    vector and a std_logic the second rule of the [include_std_logic]
    group. *)
Lemma resolve_TypeCast_Binary32 build x n tg :
  precision x = Some (ML_StdLogicVectorFormat n) →
  resolve (vhdl_code_generation_table build)
    (Node Op.TypeCast None [x] (Some ML_Binary32) tg None None)
  = Some (IdentityOperator (Some ML_Binary32) (Some true)).
Proof.
  intros Hx. unfold resolve, resolve_groups, interface, get_precision. simpl.
  by rewrite Hx.
Qed.

Lemma resolve_TypeCast_to_vector build x n tg :
  precision x = Some ML_Binary16 →
  resolve (vhdl_code_generation_table build)
    (Node Op.TypeCast None [x] (Some (ML_StdLogicVectorFormat n)) tg None None)
  = Some (IdentityOperator None (Some true)).
Proof.
  intros Hx. unfold resolve, resolve_groups, interface, get_precision. simpl.
  by rewrite Hx.
Qed.

Lemma resolve_Addition_vector_std_logic build x y n k tg :
  precision x = Some (ML_StdLogicVectorFormat k) →
  precision y = Some ML_StdLogic →
  resolve (vhdl_code_generation_table build)
    (Node Op.Addition None [x; y] (Some (ML_StdLogicVectorFormat n)) tg
       None None)
  = Some (SymbolOperator "+" 2 (Some true)).
Proof.
  intros Hx Hy. unfold resolve, resolve_groups, interface, get_precision.
  simpl. by rewrite Hx, Hy.
Qed.

Section backends.
Variable build_simplified_operator_generation_nomap :
  list ML_Format → nat → generator → (ML_Operation → bool) → rules.

Let vhdl_table :=
  vhdl_code_generation_table build_simplified_operator_generation_nomap.
Let VHDL := VHDLBackend build_simplified_operator_generation_nomap.

Lemma backend_entry_unfold b language op spec :
  backend_entry b language op spec
  = match own_entry b language op spec with
    | Some gs => Some gs
    | None =>
        general ← specializes b; backend_entry general language op spec
    end.
Proof. by destruct b as [name t [general|]]. Qed.

Lemma own_entry_VHDL_C_Code op spec : own_entry VHDL C_Code op spec = None.
Proof. reflexivity. Qed.

Lemma own_entry_VHDL_VHDL_Code op spec :
  own_entry VHDL VHDL_Code op spec = table_entry vhdl_table op spec.
Proof. reflexivity. Qed.

Lemma own_entry_Formal language op spec :
  language ≠ Gappa_Code →
  own_entry FormalBackend language op spec
  = table_entry formal_generation_table op spec.
Proof. by destruct language. Qed.

Lemma backend_entry_VHDL language op spec :
  backend_entry VHDL language op spec
  = match own_entry VHDL language op spec with
    | Some gs => Some gs
    | None => own_entry FormalBackend language op spec
    end.
Proof.
  rewrite backend_entry_unfold.
  destruct (own_entry VHDL language op spec); [done|].
  change (backend_entry FormalBackend language op spec
          = own_entry FormalBackend language op spec).
  rewrite backend_entry_unfold.
  by destruct (own_entry FormalBackend language op spec).
Qed.

(** C6: the entry a backend gives for a language, operation class and
    specifier is the entry of its own table when it has one, and otherwise
    the entry of the backend it specializes. VHDLBackend has no C_Code
    table, so every C_Code entry and every C_Code resolution on
    VHDLBackend is that of FormalBackend's C_Code table,
    [formal_generation_table]. For VHDL_Code, VHDLBackend answers from
    [vhdl_code_generation_table] when that table has the entry and from
    [formal_generation_table] when it has not. *)
Theorem backend_entry_specialized_then_general :
  (∀ b language op spec,
     backend_entry b language op spec
     = match own_entry b language op spec with
       | Some gs => Some gs
       | None =>
           general ← specializes b; backend_entry general language op spec
       end)
  ∧ (∀ op spec,
       backend_entry VHDL C_Code op spec
       = table_entry formal_generation_table op spec)
  ∧ (∀ optree,
       backend_resolve VHDL C_Code optree
       = resolve formal_generation_table optree)
  ∧ (∀ op spec gs,
       table_entry vhdl_table op spec = Some gs →
       backend_entry VHDL VHDL_Code op spec = Some gs)
  ∧ (∀ op spec,
       table_entry vhdl_table op spec = None →
       backend_entry VHDL VHDL_Code op spec
       = table_entry formal_generation_table op spec).
Proof.
  split_and!.
  - apply backend_entry_unfold.
  - intros op spec.
    by rewrite backend_entry_VHDL, own_entry_VHDL_C_Code, own_entry_Formal.
  - intros optree. unfold backend_resolve, resolve.
    by rewrite backend_entry_VHDL, own_entry_VHDL_C_Code, own_entry_Formal.
  - intros op spec gs Hown.
    by rewrite backend_entry_VHDL, own_entry_VHDL_VHDL_Code, Hown.
  - intros op spec Hown.
    by rewrite backend_entry_VHDL, own_entry_VHDL_VHDL_Code, Hown,
         own_entry_Formal.
Qed.
End backends.

Lemma backend_entry_specialized_then_general_witness :
  let build : list ML_Format → nat → generator → (ML_Operation → bool)
              → list (matcher * generator) := λ _ _ _ _, [] in
  let integer_addition :=
    Addition (Constant 1 (Some ML_Integer)) (Constant 2 (Some ML_Integer))
      (Some ML_Integer) None in
  (∃ gs, table_entry (vhdl_code_generation_table build) Op.Addition None
         = Some gs
         ∧ backend_entry (VHDLBackend build) VHDL_Code Op.Addition None
           = Some gs)
  ∧ backend_entry (VHDLBackend build) VHDL_Code Op.Multiplication None
    = table_entry formal_generation_table Op.Multiplication None
  ∧ backend_resolve (VHDLBackend build) C_Code integer_addition
    = Some (SymbolOperator "+" 2 (Some false)).
Proof.
  intros build integer_addition.
  destruct (backend_entry_specialized_then_general build)
    as (_ & _ & Hc & Hown & Hgeneral).
  split_and!.
  - eexists. split; [reflexivity|]. apply Hown. reflexivity.
  - apply Hgeneral. reflexivity.
  - rewrite Hc. reflexivity.
Defined.

(** ** The rewrite of Negation *)

(** C8: on a Negation node whose result and operand are bit vectors
    (std_logic_vector), the VHDL table resolves to the Complex generator of
    [negation_modifer], and the rewrite returns exactly the tree
    Addition(BitLogicNegate(operand), Constant 1): the root and the
    BitLogicNegate carry the result precision of the original node, the
    constant 1 has precision ML_StdLogic, and the root carries the tag of
    the original node. *)
Theorem negation_modifer_twos_complement :
  ∀ build (optree operand : ML_Operation) n k,
    op_class optree = Op.Negation →
    specifier optree = None →
    inputs optree = [operand] →
    precision optree = Some (ML_StdLogicVectorFormat n) →
    precision operand = Some (ML_StdLogicVectorFormat k) →
    resolve (vhdl_code_generation_table build) optree
    = Some (ComplexOperator negation_modifer)
    ∧ negation_modifer optree
      = Ok (Node Op.Addition None
              [ Node Op.BitLogicNegate None [operand]
                  (Some (ML_StdLogicVectorFormat n)) None None None;
                Node Op.Constant None [] (Some ML_StdLogic) None None
                  (Some 1%Z) ]
              (Some (ML_StdLogicVectorFormat n)) (tag optree) None None).
Proof.
  intros build [op spec ins prec tg ext val] operand n k; simpl.
  intros -> -> -> -> Hoperand. split.
  - unfold resolve, resolve_groups, interface. simpl.
    unfold get_precision. simpl. by rewrite Hoperand.
  - reflexivity.
Qed.

Lemma negation_modifer_twos_complement_witness :
  let x :=
    Node Op.Select None [] (Some (ML_StdLogicVectorFormat 8)) (Some "x")
      None None in
  let optree :=
    Node Op.Negation None [x] (Some (ML_StdLogicVectorFormat 8))
      (Some "neg_x") None None in
  negation_modifer optree
  = Ok (Addition (BitLogicNegate x (Some (ML_StdLogicVectorFormat 8)))
          (Constant 1 (Some ML_StdLogic))
          (Some (ML_StdLogicVectorFormat 8)) (Some "neg_x")).
Proof.
  intros x optree.
  exact (proj2 (negation_modifer_twos_complement (λ _ _ _ _, []) optree x 8 8
                  eq_refl eq_refl eq_refl eq_refl eq_refl)).
Defined.

(** ** The sign-extension rewrite *)

(** C10: [sext_modifier] never returns a tree. On every node that has the
    [ext_size] attribute it raises [UnboundLocalError], a [NameError]: the
    statement that builds [ext_precision] reads the local [ext_input] before
    the statement that assigns it. (On a node without [ext_size] the
    attribute read of the first statement fails before that.) *)
Theorem sext_modifier_always_raises :
  ∀ get_bit_size (optree : ML_Operation),
    (∀ replacement, sext_modifier get_bit_size optree ≠ Ok replacement)
    ∧ (∀ n, ext_size optree = Some n →
            sext_modifier get_bit_size optree = Raise UnboundLocalError
            ∧ exn_subclass UnboundLocalError NameError = true).
Proof.
  intros get_bit_size optree. unfold sext_modifier, get_ext_size.
  split.
  - intros replacement. by destruct (ext_size optree).
  - by intros n ->.
Qed.

Lemma sext_modifier_always_raises_witness :
  let x :=
    Node Op.Select None [] (Some (ML_StdLogicVectorFormat 8)) None None None in
  let optree :=
    Node Op.ZeroExt None [x] (Some (ML_StdLogicVectorFormat 12)) None
      (Some 4%Z) None in
  sext_modifier (λ _, Ok 8%Z) optree = Raise UnboundLocalError.
Proof.
  intros x optree.
  exact (proj1 (proj2 (sext_modifier_always_raises (λ _, Ok 8%Z) optree)
                  4%Z eq_refl)).
Defined.

(** * Further properties of the code objects *)

(** ** Text: indentation and blocks *)

Lemma sub_newline_app repl (s1 s2 : string) :
  sub_newline repl (s1 +:+ s2) = sub_newline repl s1 +:+ sub_newline repl s2.
Proof.
  induction s1 as [|a s1 IH]; [done|].
  rewrite append_cons. simpl. rewrite IH.
  destruct (decide (a = "010"%char)); [by rewrite append_assoc|done].
Qed.

Lemma sub_newline_nl (s : string) : sub_newline nl s = s.
Proof.
  induction s as [|a s IH]; [done|]. simpl. rewrite IH.
  by destruct (decide (a = "010"%char)) as [->|].
Qed.

Lemma str_mul_nonpos (s : string) (n : Z) : (n ≤ 0)%Z → str_mul s n = EmptyString.
Proof.
  intros Hn. unfold str_mul.
  by replace (Z.to_nat n) with 0 by lia.
Qed.

Lemma str_repeat_succ_r n (s : string) :
  str_repeat (S n) s = str_repeat n s +:+ s.
Proof.
  induction n as [|n IH]; simpl.
  - by rewrite append_nil_r.
  - simpl in IH. by rewrite IH at 1; rewrite append_assoc.
Qed.

Lemma str_mul_succ (s : string) (n : Z) :
  (0 ≤ n)%Z → str_mul s (n + 1) = str_mul s n +:+ s.
Proof.
  intros Hn. unfold str_mul.
  replace (Z.to_nat (n + 1)) with (S (Z.to_nat n)) by lia.
  apply str_repeat_succ_r.
Qed.

Lemma substring_skip (s t : string) m :
  substring (String.length s) m (s +:+ t) = substring 0 m t.
Proof. induction s as [|a s IH]; [done|]. by rewrite append_cons. Qed.

Lemma substring_all (t : string) : substring 0 (String.length t) t = t.
Proof. induction t as [|a t IH]; [done|]. simpl. by rewrite IH. Qed.

Lemma substring_prefix (s t : string) :
  substring 0 (String.length s) (s +:+ t) = s.
Proof.
  induction s as [|a s IH]; [by destruct t|].
  rewrite append_cons. simpl. by rewrite IH.
Qed.

(** [(s + t)[-len(t):] == t] and [(s + t)[:-len(t)] == s] *)
Lemma str_last_append (s t : string) :
  str_last (String.length t) (s +:+ t) = t.
Proof.
  unfold str_last. rewrite length_append.
  replace (String.length s + String.length t - String.length t)
    with (String.length s) by lia.
  by rewrite substring_skip, substring_all.
Qed.

Lemma str_drop_last_append (s t : string) :
  str_drop_last (String.length t) (s +:+ t) = s.
Proof.
  unfold str_drop_last. rewrite length_append.
  replace (String.length s + String.length t - String.length t)
    with (String.length s) by lia.
  apply substring_prefix.
Qed.

Lemma CodeObject_eq (c c' : CodeObject.t) :
  CodeObject.expanded_code c = CodeObject.expanded_code c' →
  CodeObject.tablevel c = CodeObject.tablevel c' →
  CodeObject.header_list c = CodeObject.header_list c' →
  CodeObject.symbol_table c = CodeObject.symbol_table c' →
  CodeObject.language c = CodeObject.language c' →
  c = c'.
Proof. destruct c, c'; simpl. by intros -> -> -> -> ->. Qed.

Lemma dec_inc_level (c : CodeObject.t) :
  CodeObject.dec_level (CodeObject.inc_level c) = c.
Proof.
  unfold CodeObject.dec_level, CodeObject.inc_level. simpl.
  change 4 with (String.length CodeObject.tab).
  rewrite str_last_append, decide_True by done.
  apply CodeObject_eq; simpl; [|lia|done..].
  apply str_drop_last_append.
Qed.

Lemma lshift_app (c : CodeObject.t) (a b : string) :
  CodeObject.lshift (CodeObject.lshift c a) b = CodeObject.lshift c (a +:+ b).
Proof.
  unfold CodeObject.lshift. simpl.
  apply CodeObject_eq; simpl; try done.
  by rewrite sub_newline_app, append_assoc.
Qed.

(** X1: [dec_level] undoes [inc_level]: the indentation level and the
    text, from which the tab appended by [inc_level] is removed again, are
    those of before. *)
Theorem dec_level_inc_level :
  ∀ c : CodeObject.t, CodeObject.dec_level (CodeObject.inc_level c) = c.
Proof. exact dec_inc_level. Qed.

(** X2: two successive insertions are one insertion of the concatenated
    text: [(c << a) << b] is [c << (a + b)]. *)
Theorem lshift_lshift :
  ∀ (c : CodeObject.t) (a b : string),
    CodeObject.lshift (CodeObject.lshift c a) b
    = CodeObject.lshift c (a +:+ b).
Proof. exact lshift_app. Qed.

(** X3: at an indentation level that is zero or negative (the level goes
    below zero when [dec_level] is called more often than [inc_level]) an
    insertion appends the text as it is, without any indentation. *)
Theorem lshift_no_indent :
  ∀ (c : CodeObject.t) (added_code : string),
    (CodeObject.tablevel c ≤ 0)%Z →
    CodeObject.expanded_code (CodeObject.lshift c added_code)
    = CodeObject.expanded_code c +:+ added_code.
Proof.
  intros c added_code Hlevel. unfold CodeObject.lshift. simpl.
  by rewrite str_mul_nonpos, append_nil_r, sub_newline_nl.
Qed.

Lemma lshift_no_indent_witness :
  let c := CodeObject.dec_level (empty_scope C_Code).2 in
  CodeObject.expanded_code (CodeObject.lshift c ("a;" +:+ nl +:+ "b;"))
  = CodeObject.expanded_code c +:+ "a;" +:+ nl +:+ "b;".
Proof.
  intros c. apply (lshift_no_indent c ("a;" +:+ nl +:+ "b;")).
  vm_compute. discriminate.
Defined.

Lemma sub_newline_other repl a (s : string) :
  a ≠ "010"%char → sub_newline repl (String a s) = String a (sub_newline repl s).
Proof. intros Ha. simpl. by rewrite decide_False. Qed.

Lemma sub_newline_newline repl : sub_newline repl nl = repl.
Proof. unfold nl. simpl. by rewrite append_nil_r. Qed.

Lemma lshift_code (c : CodeObject.t) (added_code : string) :
  CodeObject.expanded_code (CodeObject.lshift c added_code)
  = CodeObject.expanded_code c
    +:+ sub_newline (nl +:+ str_mul CodeObject.tab (CodeObject.tablevel c))
          added_code.
Proof. reflexivity. Qed.

Lemma lshift_tablevel (c : CodeObject.t) (added_code : string) :
  CodeObject.tablevel (CodeObject.lshift c added_code) = CodeObject.tablevel c.
Proof. reflexivity. Qed.

Lemma inc_level_code (c : CodeObject.t) :
  CodeObject.expanded_code (CodeObject.inc_level c)
  = CodeObject.expanded_code c +:+ CodeObject.tab.
Proof. reflexivity. Qed.

(** [dec_level] on a text that ends with a tab removes that tab *)
Lemma dec_level_strip (c : CodeObject.t) (text : string) :
  CodeObject.expanded_code c = text +:+ CodeObject.tab →
  CodeObject.expanded_code (CodeObject.dec_level c) = text
  ∧ CodeObject.tablevel (CodeObject.dec_level c)
    = (CodeObject.tablevel c - 1)%Z.
Proof.
  intros Hcode. unfold CodeObject.dec_level. simpl. rewrite Hcode.
  change 4 with (String.length CodeObject.tab).
  rewrite str_last_append, decide_True by done. simpl.
  change 4 with (String.length CodeObject.tab).
  by rewrite str_drop_last_append.
Qed.

Lemma close_open_level (c : CodeObject.t) (cr : string) :
  CodeObject.close_level (CodeObject.open_level c) cr
  = CodeObject.lshift c ("{" +:+ nl +:+ "}" +:+ cr).
Proof.
  unfold CodeObject.close_level, CodeObject.open_level.
  by rewrite dec_inc_level, lshift_app, append_assoc.
Qed.

(** X4: a block opened and closed at once is the text of an opening brace,
    a newline and a closing brace followed by [cr], inserted at the current
    level; the level is unchanged. *)
Theorem close_level_open_level :
  ∀ (c : CodeObject.t) (cr : string),
    CodeObject.close_level (CodeObject.open_level c) cr
    = CodeObject.lshift c ("{" +:+ nl +:+ "}" +:+ cr).
Proof. exact close_open_level. Qed.

(** X5: a block whose body ends with a newline, written at a level that is
    not negative: the body is indented one tab deeper than the block, the
    closing brace stands at the indentation of the block, and the level
    after the block is the level before it. *)
Theorem block_with_body :
  ∀ (c : CodeObject.t) (body cr : string),
    (0 ≤ CodeObject.tablevel c)%Z →
    let level := CodeObject.tablevel c in
    let block :=
      CodeObject.close_level
        (CodeObject.lshift (CodeObject.open_level c) (body +:+ nl)) cr in
    CodeObject.expanded_code block
    = CodeObject.expanded_code c
      +:+ "{" +:+ nl +:+ str_mul CodeObject.tab level +:+ CodeObject.tab
      +:+ sub_newline (nl +:+ str_mul CodeObject.tab (level + 1)) body
      +:+ nl +:+ str_mul CodeObject.tab level
      +:+ "}" +:+ sub_newline (nl +:+ str_mul CodeObject.tab level) cr
    ∧ CodeObject.tablevel block = level.
Proof.
  intros c body cr Hlevel level block.
  set (c1 := CodeObject.open_level c).
  set (c2 := CodeObject.lshift c1 (body +:+ nl)).
  assert (CodeObject.expanded_code c1
          = CodeObject.expanded_code c +:+ "{" +:+ nl
            +:+ str_mul CodeObject.tab level +:+ CodeObject.tab) as Hc1.
  { unfold c1, CodeObject.open_level. rewrite inc_level_code, lshift_code.
    fold level. change ("{" +:+ nl) with (String "{" nl).
    rewrite sub_newline_other, sub_newline_newline by done.
    by rewrite append_cons, !append_assoc. }
  assert (CodeObject.tablevel c1 = (level + 1)%Z) as Hl1 by done.
  assert (CodeObject.expanded_code c2
          = (CodeObject.expanded_code c1
             +:+ sub_newline (nl +:+ str_mul CodeObject.tab (level + 1)) body
             +:+ nl +:+ str_mul CodeObject.tab level) +:+ CodeObject.tab)
    as Hc2.
  { unfold c2. rewrite lshift_code, Hl1, sub_newline_app, sub_newline_newline.
    rewrite str_mul_succ by done. by rewrite !append_assoc. }
  assert (CodeObject.tablevel c2 = (level + 1)%Z) as Hl2 by done.
  destruct (dec_level_strip c2 _ Hc2) as [Hc3 Hl3].
  rewrite Hl2 in Hl3.
  unfold block, CodeObject.close_level. fold c1 c2.
  split; [|rewrite lshift_tablevel, Hl3; lia].
  rewrite lshift_code, Hc3, Hl3, Hc1.
  replace (level + 1 - 1)%Z with level by lia.
  change ("}" +:+ cr) with (String "}" cr).
  rewrite sub_newline_other by done.
  by rewrite !append_assoc.
Qed.

Lemma block_with_body_witness :
  let c := (empty_scope C_Code).2 in
  CodeObject.expanded_code
    (CodeObject.close_level
       (CodeObject.lshift (CodeObject.open_level c) ("x = 1;" +:+ nl)) nl)
  = "{" +:+ nl +:+ "    x = 1;" +:+ nl +:+ "}" +:+ nl.
Proof.
  intros c.
  rewrite (proj1 (block_with_body c "x = 1;" nl ltac:(vm_compute; discriminate))).
  vm_compute. reflexivity.
Defined.

Lemma substring_0_ge (s : string) n :
  String.length s ≤ n → substring 0 n s = s.
Proof.
  revert n. induction s as [|a s IH]; intros [|n] Hn; simpl in *;
    [done|done|lia|].
  rewrite IH; [done|lia].
Qed.

Lemma substring_split (s : string) k :
  k ≤ String.length s →
  substring 0 k s +:+ substring k (String.length s - k) s = s.
Proof.
  revert k. induction s as [|a s IH]; intros [|k] Hk; simpl in *.
  - done.
  - lia.
  - by rewrite substring_all.
  - rewrite append_cons, IH; [done|lia].
Qed.

(** a string whose last [n] characters are [t] ends with [t] *)
Lemma str_last_inv (s t : string) :
  str_last (String.length t) s = t → ∃ text, s = text +:+ t.
Proof.
  unfold str_last. intros Hlast.
  destruct (decide (String.length t ≤ String.length s)) as [Hle|Hgt].
  - exists (substring 0 (String.length s - String.length t) s).
    pose proof (substring_split s (String.length s - String.length t)
                  ltac:(lia)) as Hsplit.
    replace (String.length s - (String.length s - String.length t))
      with (String.length t) in Hsplit by lia.
    by rewrite Hlast in Hsplit.
  - exists EmptyString.
    replace (String.length s - String.length t) with 0 in Hlast by lia.
    rewrite substring_0_ge in Hlast by lia. done.
Qed.

(** X6: [dec_level] always decrements the level, also below zero; it
    removes the last tab of a text that ends with a tab and leaves any other
    text as it is. *)
Theorem dec_level_text :
  ∀ c : CodeObject.t,
    CodeObject.tablevel (CodeObject.dec_level c)
    = (CodeObject.tablevel c - 1)%Z
    ∧ (∀ text,
         CodeObject.expanded_code c = text +:+ CodeObject.tab →
         CodeObject.expanded_code (CodeObject.dec_level c) = text)
    ∧ ((∀ text, CodeObject.expanded_code c ≠ text +:+ CodeObject.tab) →
       CodeObject.expanded_code (CodeObject.dec_level c)
       = CodeObject.expanded_code c).
Proof.
  intros c. split_and!.
  - unfold CodeObject.dec_level. by destruct (decide _).
  - intros text Hcode. by apply dec_level_strip.
  - intros Hno. unfold CodeObject.dec_level.
    destruct (decide _) as [Hlast|_]; [|done]. exfalso. simpl in Hlast.
    change 4 with (String.length CodeObject.tab) in Hlast.
    apply str_last_inv in Hlast as [text Htext]. by eapply Hno.
Qed.

Lemma dec_level_text_witness :
  let c := CodeObject.lshift (empty_scope C_Code).2 "x;    " in
  CodeObject.expanded_code (CodeObject.dec_level c) = "x;"
  ∧ CodeObject.expanded_code
      (CodeObject.dec_level (CodeObject.dec_level c)) = "x;"
  ∧ CodeObject.tablevel (CodeObject.dec_level (CodeObject.dec_level c))
    = (-2)%Z.
Proof.
  intros c. split_and!.
  - apply (proj1 (proj2 (dec_level_text c)) "x;"). vm_compute. reflexivity.
  - rewrite (proj2 (proj2 (dec_level_text (CodeObject.dec_level c)))).
    + vm_compute. reflexivity.
    + intros text Htext. apply (f_equal String.length) in Htext.
      rewrite length_append in Htext.
      change (2 = String.length text + 4) in Htext. lia.
  - vm_compute. reflexivity.
Defined.

(** ** Headers *)

(** X7: [add_header] keeps the header list free of duplicates and in order
    of first addition: adding a header that is already listed changes
    nothing, adding a new one appends it, and adding the same header twice
    is adding it once. *)
Theorem add_header_once :
  ∀ (c : CodeObject.t) (header_file : string),
    let c' := CodeObject.add_header c header_file in
    (header_file ∈ CodeObject.header_list c → c' = c)
    ∧ (header_file ∉ CodeObject.header_list c →
       CodeObject.header_list c'
       = CodeObject.header_list c ++ [header_file])
    ∧ CodeObject.add_header c' header_file = c'
    ∧ (NoDup (CodeObject.header_list c) → NoDup (CodeObject.header_list c')).
Proof.
  intros c h c'. unfold c', CodeObject.add_header.
  destruct (bool_decide (h ∈ CodeObject.header_list c)) eqn:Hmem.
  - apply bool_decide_eq_true in Hmem. split_and!; [done|done| |done].
    by rewrite bool_decide_eq_true_2.
  - apply bool_decide_eq_false in Hmem. simpl. split_and!; [done|done| |].
    + rewrite bool_decide_eq_true_2; [done|].
      apply elem_of_app. right. apply list_elem_of_here.
    + intros Hnodup. apply NoDup_app. split_and!; [done| |apply NoDup_singleton].
      intros x Hx ->%list_elem_of_singleton. done.
Qed.

Lemma add_header_once_witness :
  let c := CodeObject.add_header (empty_scope C_Code).2 "math.h" in
  CodeObject.add_header c "math.h" = c
  ∧ CodeObject.header_list (CodeObject.add_header c "stdio.h")
    = ["math.h"; "stdio.h"].
Proof.
  intros c. split.
  - apply (proj1 (add_header_once c "math.h")).
    vm_compute. apply list_elem_of_here.
  - rewrite (proj1 (proj2 (add_header_once c "stdio.h"))).
    + vm_compute. reflexivity.
    + vm_compute. by intros [=]%list_elem_of_singleton.
Defined.

(** X8: the header code holds one [#include] line per header, in the order
    in which the headers were first added: adding a new header appends its
    line to the header code, adding a listed one leaves the header code as
    it is. *)
Theorem generate_header_code_add_header :
  ∀ (c : CodeObject.t) (vi : version_info) (git_tag : bool)
    (header_file : string),
    CodeObject.generate_header_code (CodeObject.add_header c header_file)
      vi git_tag
    = CodeObject.generate_header_code c vi git_tag
      +:+ (if bool_decide (header_file ∈ CodeObject.header_list c)
           then EmptyString
           else "#include <" +:+ header_file +:+ ">" +:+ nl).
Proof.
  intros c vi git_tag h. unfold CodeObject.add_header.
  destruct (bool_decide (h ∈ CodeObject.header_list c)).
  - by rewrite append_nil_r.
  - unfold CodeObject.generate_header_code. simpl. by rewrite foldl_snoc.
Qed.

(** ** A single symbol table *)

Lemma dict_set_length {K V} `{EqDecision K} (k : K) (v : V) d :
  length (Dict.set k v d) = length d + (if Dict.mem k d then 0 else 1).
Proof.
  induction d as [|[k0 v0] d IH]; simpl; [done|].
  unfold Dict.mem in *. simpl.
  destruct (decide (k = k0)) as [->|Hne]; simpl.
  - rewrite bool_decide_eq_true_2 by apply list_elem_of_here. lia.
  - rewrite IH. f_equal. f_equal.
    destruct (bool_decide (k ∈ Dict.keys d)) eqn:Hmem.
    + apply bool_decide_eq_true in Hmem.
      by rewrite bool_decide_eq_true_2 by by apply list_elem_of_further.
    + apply bool_decide_eq_false in Hmem.
      rewrite bool_decide_eq_false_2; [done|].
      by intros [?|?]%elem_of_cons.
Qed.

Lemma dict_keys_set_NoDup {K V} `{EqDecision K} (k : K) (v : V) d :
  NoDup (Dict.keys d) → NoDup (Dict.keys (Dict.set k v d)).
Proof.
  intros Hnodup. destruct (decide (k ∈ Dict.keys d)) as [Hin|Hout].
  - by rewrite dict_keys_set_existing.
  - rewrite dict_set_fresh by done. unfold Dict.keys in *.
    rewrite fmap_app. apply NoDup_app. split_and!; [done| |apply NoDup_singleton].
    simpl. by intros x Hx ->%list_elem_of_singleton.
Qed.

Lemma dict_get_elem_of {K V} `{EqDecision K} (k : K) (v : V) d :
  Dict.get k d = Some v → (k, v) ∈ d.
Proof.
  induction d as [|[k0 v0] d IH]; simpl; [done|].
  destruct (decide (k = k0)) as [->|Hne].
  - intros [= ->]. apply list_elem_of_here.
  - intros Hd. apply list_elem_of_further. by apply IH.
Qed.

Lemma dict_elem_of_get {K V} `{EqDecision K} (k : K) (v : V) d :
  NoDup (Dict.keys d) → (k, v) ∈ d → Dict.get k d = Some v.
Proof.
  intros Hnodup (p & Hp)%list_elem_of_lookup_1. by eapply dict_get_lookup.
Qed.

(** X9: [SymbolTable.get_free_name] always returns: a name that is not a key
    of the table, either the prefix itself or the prefix followed by an
    index; the request declares nothing, the entries of the table are
    unchanged, and it records the index given for the prefix. *)
Theorem SymbolTable_get_free_name_fresh :
  ∀ (s : SymbolTable.t) (prefix : string),
    ∃ name s',
      SymbolTable.get_free_name s prefix = Some (name, s')
      ∧ (name ∉ Dict.keys (SymbolTable.table s))
      ∧ SymbolTable.table s' = SymbolTable.table s
      ∧ ((name = prefix ∧ SymbolTable.prefix_index s' !! prefix = Some 0)
         ∨ ∃ j, name = fmt_name prefix j
                ∧ SymbolTable.prefix_index s' !! prefix = Some j
                ∧ prefix ∈ Dict.keys (SymbolTable.table s)).
Proof.
  intros s prefix.
  destruct (SymbolTable_get_free_name_total s prefix) as [[name s'] Hget].
  exists name, s'. split; [done|].
  unfold SymbolTable.get_free_name in Hget.
  destruct (SymbolTable.is_free_name s prefix) eqn:Hfree.
  - injection Hget as <- <-. split_and!.
    + by apply table_is_free_name_spec.
    + done.
    + left. split; [done|]. simpl. apply lookup_insert_eq.
  - apply bind_Some in Hget as (j & Hprobe & [= <- <-]).
    apply probe_sound in Hprobe as (Hj & _).
    split_and!.
    + by apply table_is_free_name_spec.
    + done.
    + right. exists j. split_and!; [done|simpl; apply lookup_insert_eq|].
      unfold SymbolTable.is_free_name in Hfree.
      apply negb_false_iff in Hfree. by apply dict_mem_true.
Qed.

(** X10: [declare_symbol] binds the name to the object and leaves every
    other name bound as it was; it adds an entry when the name was free and
    replaces the object of the entry when it was not, so that the keys of
    the table stay pairwise distinct. *)
Theorem declare_symbol_binds :
  ∀ (s : SymbolTable.t) (name : string) (symbol_object : obj),
    let s' := SymbolTable.declare_symbol s name symbol_object in
    Dict.get name (SymbolTable.table s') = Some symbol_object
    ∧ SymbolTable.is_free_name s' name = false
    ∧ (∀ name', name' ≠ name →
         Dict.get name' (SymbolTable.table s')
         = Dict.get name' (SymbolTable.table s)
         ∧ SymbolTable.is_free_name s' name'
           = SymbolTable.is_free_name s name')
    ∧ length (SymbolTable.table s')
      = length (SymbolTable.table s)
        + (if SymbolTable.is_free_name s name then 1 else 0)
    ∧ (NoDup (Dict.keys (SymbolTable.table s)) →
       NoDup (Dict.keys (SymbolTable.table s'))).
Proof.
  intros s name o s'. unfold s'. simpl. split_and!.
  - apply dict_get_set_eq.
  - unfold SymbolTable.is_free_name. simpl. apply negb_false_iff.
    apply dict_mem_true, dict_keys_set. by left.
  - intros name' Hne. split.
    + rewrite dict_get_set. by rewrite decide_False.
    + unfold SymbolTable.is_free_name. simpl. f_equal.
      apply eq_true_iff_eq. rewrite !dict_mem_true, dict_keys_set. tauto.
  - rewrite dict_set_length. unfold SymbolTable.is_free_name.
    by destruct (Dict.mem name (SymbolTable.table s)).
  - apply dict_keys_set_NoDup.
Qed.

Lemma declare_symbol_binds_witness :
  let s := SymbolTable.declare_symbol SymbolTable.init "x" 1 in
  let s' := SymbolTable.declare_symbol s "x" 2 in
  Dict.get "x" (SymbolTable.table s') = Some 2
  ∧ NoDup (Dict.keys (SymbolTable.table s')).
Proof.
  intros s s'. split.
  - apply (proj1 (declare_symbol_binds s "x" 2)).
  - apply (proj2 (proj2 (proj2 (proj2 (declare_symbol_binds s "x" 2))))).
    vm_compute. apply NoDup_singleton.
Defined.

(** X11: the identity search of one table and the lookup by name agree: in
    a table whose keys are pairwise distinct, the name that
    [has_definition] returns for an object is bound to that object, and an
    object bound to some name is found. Once a name has been declared again
    with another object, the former object is no longer found under that
    name. *)
Theorem has_definition_lookup :
  ∀ (s : SymbolTable.t) (symbol_object : obj),
    NoDup (Dict.keys (SymbolTable.table s)) →
    (∀ key, SymbolTable.has_definition s symbol_object = Some key →
            Dict.get key (SymbolTable.table s) = Some symbol_object)
    ∧ (∀ key, Dict.get key (SymbolTable.table s) = Some symbol_object →
              is_Some (SymbolTable.has_definition s symbol_object))
    ∧ (∀ name other, other ≠ symbol_object →
         SymbolTable.has_definition
           (SymbolTable.declare_symbol s name other) symbol_object
         ≠ Some name).
Proof.
  intros s o Hnodup. unfold SymbolTable.has_definition. split_and!.
  - intros key Hdef%has_definition_in_Some. by apply dict_elem_of_get.
  - intros key Hget%dict_get_elem_of.
    destruct (SymbolTable.has_definition_in (SymbolTable.table s) o) eqn:Hdef;
      [by eexists|].
    exfalso. apply has_definition_in_None in Hdef. apply Hdef.
    apply list_elem_of_fmap. by exists (key, o).
  - intros name other Hne Hdef%has_definition_in_Some.
    apply dict_elem_of_get in Hdef; [|by apply dict_keys_set_NoDup].
    simpl in Hdef. rewrite dict_get_set_eq in Hdef. congruence.
Qed.

Lemma has_definition_lookup_witness :
  let s :=
    SymbolTable.declare_symbol
      (SymbolTable.declare_symbol SymbolTable.init "a" 1) "b" 2 in
  Dict.get "b" (SymbolTable.table s) = Some 2
  ∧ SymbolTable.has_definition (SymbolTable.declare_symbol s "b" 3) 2
    ≠ Some "b".
Proof.
  intros s.
  assert (NoDup (Dict.keys (SymbolTable.table s))) as Hnodup.
  { vm_compute. apply NoDup_cons. split.
    - by intros [=]%list_elem_of_singleton.
    - apply NoDup_singleton. }
  destruct (has_definition_lookup s 2 Hnodup) as (Hfound & _ & Hforgot).
  split.
  - apply Hfound. vm_compute. reflexivity.
  - apply Hforgot. lia.
Defined.

(** ** Successive requests for a prefix that is taken *)

Lemma get_free_name_taken σ m prefix name m' :
  MultiSymbolTable.is_free_name σ m prefix = false →
  MultiSymbolTable.get_free_name σ m prefix = Some (name, m') →
  ∃ j, name = fmt_name prefix j
       ∧ MultiSymbolTable.prefix_index m' !! prefix = Some j
       ∧ ∀ i, MultiSymbolTable.prefix_index m !! prefix = Some i → i < j.
Proof.
  intros Htaken [(Hfree & _)|(_ & j & -> & -> & _ & Hstart)]%get_free_name_inv;
    [congruence|].
  exists j. split_and!; [done|destruct m; simpl; apply lookup_insert_eq|].
  intros i Hi. rewrite Hi in Hstart. simpl in Hstart. lia.
Qed.

(** X12: while the bare prefix is taken, the indices that successive
    requests for it return on a scope increase strictly, whether or not the
    names were declared and whatever happened to the store in between: no
    indexed name is returned twice. *)
Theorem get_free_name_taken_prefix_increases :
  ∀ σ σ' m prefix name1 m1 name2 m2,
    MultiSymbolTable.is_free_name σ m prefix = false →
    MultiSymbolTable.is_free_name σ' m1 prefix = false →
    MultiSymbolTable.get_free_name σ m prefix = Some (name1, m1) →
    MultiSymbolTable.get_free_name σ' m1 prefix = Some (name2, m2) →
    ∃ j1 j2, name1 = fmt_name prefix j1 ∧ name2 = fmt_name prefix j2
             ∧ j1 < j2 ∧ name1 ≠ name2.
Proof.
  intros σ σ' m prefix name1 m1 name2 m2 Ht1 Ht2 Hget1 Hget2.
  destruct (get_free_name_taken _ _ _ _ _ Ht1 Hget1) as (j1 & -> & Hidx & _).
  destruct (get_free_name_taken _ _ _ _ _ Ht2 Hget2) as (j2 & -> & _ & Hlt).
  specialize (Hlt j1 Hidx).
  exists j1, j2. split_and!; [done|done|done|].
  intros Heq%fmt_name_inj. lia.
Qed.

Lemma get_free_name_taken_prefix_increases_witness :
  let σ0 := (empty_scope C_Code).1 in
  let m := CodeObject.symbol_table (empty_scope C_Code).2 in
  let σ := MultiSymbolTable.declare_var_name σ0 m "tmp" 0 in
  ∃ name1 m1 name2 m2,
    MultiSymbolTable.get_free_name σ m "tmp" = Some (name1, m1)
    ∧ MultiSymbolTable.get_free_name σ m1 "tmp" = Some (name2, m2)
    ∧ name1 ≠ name2.
Proof.
  intros σ0 m σ.
  destruct (get_free_name_total σ m "tmp") as [[name1 m1] Hget1].
  destruct (get_free_name_total σ m1 "tmp") as [[name2 m2] Hget2].
  exists name1, m1, name2, m2. split_and!; [exact Hget1|exact Hget2|].
  destruct (get_free_name_taken_prefix_increases σ σ m "tmp" name1 m1 name2 m2)
    as (j1 & j2 & _ & _ & _ & Hne); [| |exact Hget1|exact Hget2|exact Hne].
  - vm_compute. reflexivity.
  - assert (m1 = MultiSymbolTable.set_prefix_index m "tmp" 0) as ->.
    { vm_compute in Hget1. vm_compute. congruence. }
    vm_compute. reflexivity.
Defined.

(** ** A new scope *)

(** membership in the domain of a store that grew from another one *)
Ltac dom_chain :=
  repeat first
    [ assumption
    | match goal with
      | H : dom _ ⊆ dom ?s |- _ ∈ dom ?s => apply H
      end ].

Ltac deref_chain :=
  repeat first
    [ assumption
    | match goal with
      | D : ∀ r, deref ?s r = deref _ r |- deref ?s _ = _ => rewrite D
      end ].

Ltac dom_contradiction :=
  match goal with
  | H : ?r ∉ dom _ |- _ => apply H; solve [dom_chain]
  end.

Lemma get_shared_table_spec (σ : store) tag shared σ' r :
  MultiSymbolTable.get_shared_table σ tag shared = (σ', r) →
  (∀ r0, deref σ' r0 = deref σ r0)
  ∧ dom σ ⊆ dom σ'
  ∧ match Dict.get tag shared with
    | Some r' => r = r'
    | None => (r ∉ dom σ) ∧ r ∈ dom σ' ∧ deref σ' r = SymbolTable.init
    end.
Proof.
  unfold MultiSymbolTable.get_shared_table.
  destruct (Dict.get tag shared) as [r'|].
  - intros [= <- <-]. done.
  - intros Halloc.
    assert (σ' = (alloc σ).1) as -> by by rewrite Halloc.
    assert (r = fresh (dom σ)) as -> by by (unfold alloc in Halloc; injection Halloc).
    split_and!.
    + apply deref_alloc.
    + unfold alloc. simpl. rewrite dom_insert. apply union_subseteq_r.
    + apply is_fresh.
    + unfold alloc. simpl. rewrite dom_insert. apply elem_of_union_l.
      by apply elem_of_singleton.
    + unfold deref, alloc. simpl. by rewrite lookup_insert_eq.
Qed.

Lemma MultiSymbolTable_init_spec (σ : store) shared parents σ' m :
  MultiSymbolTable.init σ shared parents = (σ', m) →
  (∀ r, deref σ' r = deref σ r)
  ∧ dom σ ⊆ dom σ'
  ∧ MultiSymbolTable.parent_tables m = parents
  ∧ MultiSymbolTable.prefix_index m = ∅
  ∧ (∀ tag r, Dict.get tag shared = Some r → category_table m tag = r)
  ∧ (∀ tag, Dict.get tag shared = None →
       (category_table m tag ∉ dom σ)
       ∧ category_table m tag ∈ dom σ'
       ∧ deref σ' (category_table m tag) = SymbolTable.init
       ∧ ∀ tag', tag' ≠ tag → Dict.get tag' shared = None →
                 category_table m tag' ≠ category_table m tag).
Proof.
  unfold MultiSymbolTable.init.
  destruct (MultiSymbolTable.get_shared_table σ ConstantSymbol shared)
    as [σ1 c] eqn:H1.
  destruct (MultiSymbolTable.get_shared_table σ1 FunctionSymbol shared)
    as [σ2 f] eqn:H2.
  destruct (MultiSymbolTable.get_shared_table σ2 VariableSymbol shared)
    as [σ3 v] eqn:H3.
  destruct (MultiSymbolTable.get_shared_table σ3 ProtectedSymbol shared)
    as [σ4 p] eqn:H4.
  destruct (MultiSymbolTable.get_shared_table σ4 TableSymbol shared)
    as [σ5 t] eqn:H5.
  intros [= <- <-].
  apply get_shared_table_spec in H1 as (D1 & S1 & M1).
  apply get_shared_table_spec in H2 as (D2 & S2 & M2).
  apply get_shared_table_spec in H3 as (D3 & S3 & M3).
  apply get_shared_table_spec in H4 as (D4 & S4 & M4).
  apply get_shared_table_spec in H5 as (D5 & S5 & M5).
  split_and!; [| |done|done| |].
  - intros r. by rewrite D5, D4, D3, D2, D1.
  - by repeat (etrans; [eassumption|]).
  - intros tag r Hget.
    destruct tag; simpl; rewrite Hget in *; congruence.
  - intros tag Hget.
    destruct tag; simpl; rewrite Hget in *; destruct_and?;
      (split_and!;
       [intros ?; dom_contradiction
       |dom_chain
       |deref_chain
       |intros tag' Hne Hget'; destruct tag'; simpl; try done;
        rewrite Hget' in *; destruct_and?;
        intros Heq; first [rewrite Heq in *|rewrite <- Heq in *];
        dom_contradiction]).
Qed.

(** X13: a new scope takes, for each category, the table object given for
    it in [shared_tables], and creates a new, empty table object for each
    category that is not given: an object distinct from every object that
    existed before and from the other new ones. Creating the scope changes
    no existing table; the scope starts with the given parents and without
    recorded prefix index. *)
Theorem MultiSymbolTable_init_tables :
  ∀ (σ : store) (shared_tables : list (symbol_tag * ref))
    (parent_tables : list MultiSymbolTable.t),
    let s := MultiSymbolTable.init σ shared_tables parent_tables in
    (∀ r, deref s.1 r = deref σ r)
    ∧ dom σ ⊆ dom s.1
    ∧ MultiSymbolTable.parent_tables s.2 = parent_tables
    ∧ MultiSymbolTable.prefix_index s.2 = ∅
    ∧ (∀ tag r, Dict.get tag shared_tables = Some r →
                category_table s.2 tag = r)
    ∧ (∀ tag, Dict.get tag shared_tables = None →
         (category_table s.2 tag ∉ dom σ)
         ∧ category_table s.2 tag ∈ dom s.1
         ∧ deref s.1 (category_table s.2 tag) = SymbolTable.init
         ∧ ∀ tag', tag' ≠ tag → Dict.get tag' shared_tables = None →
                   category_table s.2 tag' ≠ category_table s.2 tag).
Proof.
  intros σ shared parents s.
  apply (MultiSymbolTable_init_spec σ shared parents). apply surjective_pairing.
Qed.

(** ** Nested levels and their scopes *)

Lemma alloc_spec (σ σ' : store) r :
  alloc σ = (σ', r) →
  (∀ r0, deref σ' r0 = deref σ r0) ∧ dom σ ⊆ dom σ' ∧ created σ σ' r.
Proof.
  intros Halloc.
  assert (σ' = (alloc σ).1) as -> by by rewrite Halloc.
  assert (r = fresh (dom σ)) as ->
    by by (unfold alloc in Halloc; injection Halloc).
  split_and!.
  - apply deref_alloc.
  - unfold alloc. simpl. rewrite dom_insert. apply union_subseteq_r.
  - split_and!.
    + apply is_fresh.
    + unfold alloc. simpl. rewrite dom_insert. apply elem_of_union_l.
      by apply elem_of_singleton.
    + unfold deref, alloc. simpl. by rewrite lookup_insert_eq.
Qed.

Lemma created_mono (σ0 σ σ' σ'' : store) r :
  dom σ0 ⊆ dom σ → dom σ' ⊆ dom σ'' → (∀ r0, deref σ'' r0 = deref σ' r0) →
  created σ σ' r → created σ0 σ'' r.
Proof.
  intros H0 H1 Hd (Hout & Hin & Hinit). split_and!.
  - intros ?. apply Hout. by apply H0.
  - by apply H1.
  - by rewrite Hd.
Qed.

Lemma shared_tables_spec (σ : store) sc st sct stt sft σ' shared :
  NestedCode.shared_tables σ sc st sct stt sft = (σ', shared) →
  (∀ r, deref σ' r = deref σ r)
  ∧ dom σ ⊆ dom σ'
  ∧ ∃ c t,
      shared = [ (ConstantSymbol, c); (TableSymbol, t); (FunctionSymbol, sft) ]
      ∧ (if sc then c = sct else created σ σ' c)
      ∧ (if st then t = stt else created σ σ' t).
Proof.
  unfold NestedCode.shared_tables, NestedCode.get_cst_table,
    NestedCode.get_table_table, NestedCode.get_function_table.
  destruct sc, st.
  - intros [= <- <-]. split_and!; [done|done|]. by exists sct, stt.
  - destruct (alloc σ) as [σ1 t] eqn:Ht. intros [= <- <-].
    apply alloc_spec in Ht as (Hd & Hs & Hc).
    split_and!; [done|done|]. by exists sct, t.
  - destruct (alloc σ) as [σ1 c] eqn:Hc. intros [= <- <-].
    apply alloc_spec in Hc as (Hd & Hs & Hc).
    split_and!; [done|done|]. by exists c, stt.
  - destruct (alloc σ) as [σ1 c] eqn:Hc.
    destruct (alloc σ1) as [σ2 t] eqn:Ht. intros [= <- <-].
    apply alloc_spec in Hc as (Hd1 & Hs1 & Hc).
    apply alloc_spec in Ht as (Hd2 & Hs2 & Ht).
    split_and!.
    + intros r. by rewrite Hd2, Hd1.
    + by etrans.
    + exists c, t. split_and!; [done| |].
      * by eapply (created_mono σ σ σ1 σ2).
      * eapply (created_mono σ σ1 σ2 σ2); done.
Qed.

(** what [open_level] builds: the new code object, empty, on top of the
    list; its scope has the scope of the enclosing level as last parent,
    the static tables where the nested code shares them, and new table
    objects for the other categories *)
Lemma open_level_inv (σ : store) nc c rest σ' nc' :
  NestedCode.code_list nc = c :: rest →
  NestedCode.open_level σ nc = Ok (σ', nc') →
  ∃ new_code,
    nc' = NestedCode.set_code_list nc
            (new_code :: CodeObject.open_level c :: rest)
    ∧ (∀ r, deref σ' r = deref σ r)
    ∧ dom σ ⊆ dom σ'
    ∧ CodeObject.expanded_code new_code = EmptyString
    ∧ CodeObject.tablevel new_code = 0%Z
    ∧ CodeObject.header_list new_code = []
    ∧ MultiSymbolTable.parent_tables (CodeObject.symbol_table new_code)
      = MultiSymbolTable.parent_tables (CodeObject.symbol_table c)
        ++ [CodeObject.symbol_table c]
    ∧ MultiSymbolTable.function_table (CodeObject.symbol_table new_code)
      = NestedCode.static_function_table nc
    ∧ (if NestedCode.static_cst nc
       then MultiSymbolTable.constant_table (CodeObject.symbol_table new_code)
            = NestedCode.static_cst_table nc
       else created σ σ'
              (MultiSymbolTable.constant_table
                 (CodeObject.symbol_table new_code)))
    ∧ (if NestedCode.static_table nc
       then MultiSymbolTable.table_table (CodeObject.symbol_table new_code)
            = NestedCode.static_table_table nc
       else created σ σ'
              (MultiSymbolTable.table_table
                 (CodeObject.symbol_table new_code)))
    ∧ created σ σ'
        (MultiSymbolTable.variable_table (CodeObject.symbol_table new_code))
    ∧ created σ σ'
        (MultiSymbolTable.protected_table (CodeObject.symbol_table new_code)).
Proof.
  intros Hlist. unfold NestedCode.open_level. rewrite Hlist.
  destruct (NestedCode.shared_tables σ _ _ _ _ _) as [σ1 shared] eqn:Hshared.
  unfold CodeObject.init.
  destruct (MultiSymbolTable.init σ1 shared _) as [σ2 m] eqn:Hinit.
  intros [= <- <-].
  apply shared_tables_spec in Hshared as (Hd1 & Hs1 & cst & tt & -> & Hc & Ht).
  apply MultiSymbolTable_init_spec in Hinit
    as (Hd2 & Hs2 & Hparents & _ & Hgiven & Hnew).
  eexists. split; [reflexivity|]. simpl.
  pose proof (Hgiven ConstantSymbol cst eq_refl) as Hcst.
  pose proof (Hgiven TableSymbol tt eq_refl) as Htt.
  pose proof (Hgiven FunctionSymbol _ eq_refl) as Hft.
  destruct (Hnew VariableSymbol eq_refl) as (Hv1 & Hv2 & Hv3 & _).
  destruct (Hnew ProtectedSymbol eq_refl) as (Hp1 & Hp2 & Hp3 & _).
  simpl in *.
  assert (∀ r, created σ σ1 r → created σ σ2 r) as Hmono.
  { intros r. by apply created_mono. }
  split_and!; try done.
  - intros r. by rewrite Hd2, Hd1.
  - by etrans.
  - rewrite Hcst. destruct (NestedCode.static_cst nc); [done|by apply Hmono].
  - rewrite Htt. destruct (NestedCode.static_table nc); [done|by apply Hmono].
  - split_and!; [|done|done]. intros ?. apply Hv1. by apply Hs1.
  - split_and!; [|done|done]. intros ?. apply Hp1. by apply Hs1.
Qed.

Lemma scope_refs_unfold m :
  scope_refs m
  = [ MultiSymbolTable.constant_table m; MultiSymbolTable.function_table m;
      MultiSymbolTable.variable_table m; MultiSymbolTable.protected_table m;
      MultiSymbolTable.table_table m ]
    ++ concat (map scope_refs (MultiSymbolTable.parent_tables m)).
Proof. by destruct m. Qed.

Lemma scope_refs_parent a m r :
  a ∈ MultiSymbolTable.parent_tables m → r ∈ scope_refs a → r ∈ scope_refs m.
Proof.
  intros Ha Hr. rewrite (scope_refs_unfold m). apply elem_of_app. right.
  apply list_elem_of_In, in_concat. exists (scope_refs a). split.
  - by apply in_map, list_elem_of_In.
  - by apply list_elem_of_In.
Qed.

(** a scope reads the store only at its own table objects and at those of
    the scopes it reaches *)
Lemma is_free_name_agree (σ σ' : store) m name :
  (∀ r, r ∈ scope_refs m → deref σ' r = deref σ r) →
  MultiSymbolTable.is_free_name σ' m name
  = MultiSymbolTable.is_free_name σ m name.
Proof.
  induction m as [c f v p tt parents pi IH] using scope_ind. intros Hagree.
  rewrite !is_free_name_unfold. simpl.
  assert (∀ r, r ∈ [c; f; v; p; tt] → deref σ' r = deref σ r) as Hown.
  { intros r Hr. apply Hagree. rewrite scope_refs_unfold.
    apply elem_of_app. left. exact Hr. }
  rewrite !Hown
    by repeat first [apply list_elem_of_here|apply list_elem_of_further].
  f_equal.
  assert (∀ a, a ∈ parents →
            MultiSymbolTable.is_free_name σ' a name
            = MultiSymbolTable.is_free_name σ a name) as Hpar.
  { intros a Ha. rewrite Forall_forall in IH. apply IH; [done|].
    intros r Hr. apply Hagree. by eapply scope_refs_parent. }
  clear IH Hagree Hown. induction parents as [|a parents IHp]; simpl; [done|].
  rewrite Hpar by apply list_elem_of_here. f_equal. apply IHp.
  intros b Hb. apply Hpar. by apply list_elem_of_further.
Qed.

Lemma same_scope_variable_table m m' :
  same_scope m m' →
  MultiSymbolTable.variable_table m = MultiSymbolTable.variable_table m'.
Proof.
  intros [Htab _]. unfold MultiSymbolTable.table_list in Htab. congruence.
Qed.

Lemma open_level_Ok (σ : store) nc c rest :
  NestedCode.code_list nc = c :: rest →
  ∃ σ' nc', NestedCode.open_level σ nc = Ok (σ', nc').
Proof.
  intros Hlist. unfold NestedCode.open_level. rewrite Hlist.
  destruct (NestedCode.shared_tables σ _ _ _ _ _) as [σ1 shared].
  destruct (CodeObject.init σ1 _ shared _) as [σ2 new_code].
  by eexists _, _.
Qed.

(** the names that a freshly opened level sees are those of the enclosing
    level and those of the static tables *)
Lemma open_level_visible (σ : store) nc c rest σ' nc' new_code name :
  NestedCode.code_list nc = c :: rest →
  NestedCode.open_level σ nc = Ok (σ', nc') →
  NestedCode.code_list nc' = new_code :: CodeObject.open_level c :: rest →
  visible σ' (CodeObject.symbol_table new_code) name →
  visible σ (CodeObject.symbol_table c) name
  ∨ ∃ r, r ∈ [ NestedCode.static_cst_table nc;
               NestedCode.static_table_table nc;
               NestedCode.static_function_table nc ]
         ∧ name ∈ Dict.keys (SymbolTable.table (deref σ r)).
Proof.
  intros Hlist Hopen Hlist'.
  destruct (open_level_inv σ nc c rest σ' nc' Hlist Hopen)
    as (new & -> & Hd & _ & _ & _ & _ & Hpar & Hft & Hct & Htt & Hv & Hp).
  simpl in Hlist'. injection Hlist' as <-.
  rewrite visible_unfold.
  intros [(tag & r & Hin & Hname)|(a & Ha & Hvis)].
  - right. rewrite Hd in Hname.
    unfold MultiSymbolTable.table_list in Hin.
    assert (∀ r0, created σ σ' r0 →
              name ∉ Dict.keys (SymbolTable.table (deref σ r0))) as Hempty.
    { intros r0 (_ & _ & Hinit). rewrite <- Hd, Hinit. apply not_elem_of_nil. }
    rewrite !elem_of_cons, elem_of_nil in Hin.
    destruct Hin as [[= -> ->]|[[= -> ->]|[[= -> ->]|[[= -> ->]|[[= -> ->]|[]]]]]].
    + destruct (NestedCode.static_cst nc).
      * exists (NestedCode.static_cst_table nc).
        split; [apply list_elem_of_here|by rewrite <- Hct].
      * by apply Hempty in Hct.
    + exists (NestedCode.static_function_table nc).
      split; [|by rewrite <- Hft].
      do 2 apply list_elem_of_further. apply list_elem_of_here.
    + by apply Hempty in Hv.
    + by apply Hempty in Hp.
    + destruct (NestedCode.static_table nc).
      * exists (NestedCode.static_table_table nc).
        split; [|by rewrite <- Htt].
        apply list_elem_of_further, list_elem_of_here.
      * by apply Hempty in Htt.
  - left. rewrite Hpar in Ha.
    assert (visible σ a name) as Hvis'.
    { eapply visible_store_mono; [|exact Hvis]. intros r n. by rewrite Hd. }
    apply elem_of_app in Ha as [Ha| ->%list_elem_of_singleton]; [|done].
    apply visible_unfold. right. by exists a.
Qed.

(** X14: the scope of a level opened by [open_level] has the scope of the
    enclosing level as a parent: whatever the store becomes, every name
    visible in the enclosing level is visible in the new level, so that no
    name request of the new level returns a name of the enclosing level. At
    its creation the new level has no name of its own: it sees only the
    names of the enclosing level and of the static tables. *)
Theorem open_level_sees_enclosing :
  ∀ (σ : store) nc c rest σ' nc',
    NestedCode.code_list nc = c :: rest →
    NestedCode.open_level σ nc = Ok (σ', nc') →
    ∃ new_code,
      NestedCode.code_list nc' = new_code :: CodeObject.open_level c :: rest
      ∧ (∀ (σ2 : store) name,
           visible σ2 (CodeObject.symbol_table c) name →
           visible σ2 (CodeObject.symbol_table new_code) name)
      ∧ (∀ (σ2 : store) prefix name m',
           MultiSymbolTable.get_free_name σ2
             (CodeObject.symbol_table new_code) prefix = Some (name, m') →
           ¬ visible σ2 (CodeObject.symbol_table c) name)
      ∧ (∀ name,
           visible σ' (CodeObject.symbol_table new_code) name →
           visible σ (CodeObject.symbol_table c) name
           ∨ ∃ r, r ∈ [ NestedCode.static_cst_table nc;
                        NestedCode.static_table_table nc;
                        NestedCode.static_function_table nc ]
                  ∧ name ∈ Dict.keys (SymbolTable.table (deref σ r))).
Proof.
  intros σ nc c rest σ' nc' Hlist Hopen.
  destruct (open_level_inv σ nc c rest σ' nc' Hlist Hopen)
    as (new & Hnc & _ & _ & _ & _ & _ & Hpar & _).
  exists new.
  assert (NestedCode.code_list nc' = new :: CodeObject.open_level c :: rest)
    as Hlist' by by rewrite Hnc.
  assert (∀ (σ2 : store) name,
            visible σ2 (CodeObject.symbol_table c) name →
            visible σ2 (CodeObject.symbol_table new) name) as Hsees.
  { intros σ2 name Hvis. apply visible_unfold. right.
    exists (CodeObject.symbol_table c). split; [|done].
    rewrite Hpar. apply elem_of_app. right. apply list_elem_of_here. }
  split_and!; [done|done| |].
  - intros σ2 prefix name m' Hget Hvis.
    apply get_free_name_is_free, is_free_name_spec in Hget.
    by apply Hget, Hsees.
  - intros name. by eapply open_level_visible.
Qed.

Lemma open_level_sees_enclosing_witness :
  let s0 := NestedCode.init ∅ assign_generator false true in
  let σ := MultiSymbolTable.declare_var_name s0.1
             (CodeObject.symbol_table (default (empty_scope C_Code).2
                (NestedCode.main_code s0.2))) "x" 0 in
  let opened :=
    match NestedCode.open_level σ s0.2 with
    | Ok s => s
    | Raise _ => s0
    end in
  ∃ new_code,
    NestedCode.code_list opened.2 = [new_code; CodeObject.open_level
      (default (empty_scope C_Code).2 (NestedCode.main_code s0.2))]
    ∧ MultiSymbolTable.get_free_name opened.1
        (CodeObject.symbol_table new_code) "x"
      ≠ Some ("x", MultiSymbolTable.set_prefix_index
                     (CodeObject.symbol_table new_code) "x" 0).
Proof.
  intros s0 σ opened.
  destruct (open_level_sees_enclosing σ s0.2
              (default (empty_scope C_Code).2 (NestedCode.main_code s0.2)) []
              opened.1 opened.2)
    as (new_code & Hlist & Hsees & Hfree & _).
  - vm_compute. reflexivity.
  - vm_compute. reflexivity.
  - exists new_code. split; [exact Hlist|].
    intros Hget. apply (Hfree _ _ _ _ Hget).
    exists (CodeObject.symbol_table
              (default (empty_scope C_Code).2 (NestedCode.main_code s0.2))),
           VariableSymbol,
           (MultiSymbolTable.variable_table
              (CodeObject.symbol_table
                 (default (empty_scope C_Code).2
                    (NestedCode.main_code s0.2)))).
    split_and!.
    + apply reaches_self.
    + unfold MultiSymbolTable.table_list.
      do 2 apply list_elem_of_further. apply list_elem_of_here.
    + vm_compute. apply list_elem_of_here.
Defined.

Lemma get_free_var_name_top (σ : store) nc c rest prefix declare var_object :
  NestedCode.code_list nc = c :: rest →
  NestedCode.get_free_var_name σ nc prefix declare var_object
  = Ok ('(name, σ', c') ←
          CodeObject.get_free_var_name σ c prefix declare var_object;
        Some (name, σ', NestedCode.set_code_list nc (c' :: rest))).
Proof.
  intros Hlist. unfold NestedCode.get_free_var_name, NestedCode.on_top.
  by rewrite Hlist.
Qed.

(** X15: a variable declared in a nested level is local to it. When every
    table object that the enclosing level reads exists in the store, a name
    requested and declared in the level just opened is taken in that level
    and changes nothing for the enclosing one: there, every name is free or
    taken exactly as before the level was opened. *)
Theorem nested_variable_is_local :
  ∀ (σ : store) nc c rest σ1 nc1 prefix (var_object : obj) name σ2 nc2,
    NestedCode.code_list nc = c :: rest →
    (∀ r, r ∈ scope_refs (CodeObject.symbol_table c) → r ∈ dom σ) →
    NestedCode.open_level σ nc = Ok (σ1, nc1) →
    NestedCode.get_free_var_name σ1 nc1 prefix true var_object
    = Ok (Some (name, σ2, nc2)) →
    (∀ n, MultiSymbolTable.is_free_name σ2 (CodeObject.symbol_table c) n
          = MultiSymbolTable.is_free_name σ (CodeObject.symbol_table c) n)
    ∧ ∃ new_code,
        NestedCode.code_list nc2 = new_code :: CodeObject.open_level c :: rest
        ∧ MultiSymbolTable.is_free_name σ2
            (CodeObject.symbol_table new_code) name = false.
Proof.
  intros σ nc c rest σ1 nc1 prefix o name σ2 nc2 Hlist Halloc Hopen Hreq.
  destruct (open_level_inv σ nc c rest σ1 nc1 Hlist Hopen)
    as (new & -> & Hd & _ & _ & _ & _ & _ & _ & _ & _ & (Hv & _) & _).
  rewrite (get_free_var_name_top _ _ new (CodeObject.open_level c :: rest))
    in Hreq by done.
  injection Hreq as Hreq.
  unfold CodeObject.get_free_var_name in Hreq.
  destruct (MultiSymbolTable.get_free_name σ1 (CodeObject.symbol_table new)
              prefix) as [[name' m']|] eqn:Hget; [|done].
  simpl in Hreq. injection Hreq as <- <- <-.
  pose proof (get_free_name_same_scope _ _ _ _ _ Hget) as Hsame.
  split.
  - intros n. apply is_free_name_agree. intros r Hr.
    unfold MultiSymbolTable.declare_var_name.
    rewrite deref_update_ne; [apply Hd|].
    rewrite <- (same_scope_variable_table _ _ Hsame).
    intros <-. by apply Hv, Halloc.
  - eexists. split; [reflexivity|]. simpl.
    apply is_free_name_false.
    apply (declared_visible σ1 m' name' o). apply list_elem_of_here.
Qed.

Lemma nested_variable_is_local_witness :
  let s0 := NestedCode.init ∅ assign_generator false true in
  let c := default (empty_scope C_Code).2 (NestedCode.main_code s0.2) in
  let opened :=
    match NestedCode.open_level s0.1 s0.2 with
    | Ok s => s
    | Raise _ => s0
    end in
  let declared :=
    match NestedCode.get_free_var_name opened.1 opened.2 "tmp" true 7 with
    | Ok (Some s) => s
    | _ => ("tmp", s0.1, s0.2)
    end in
  declared.1.1 = "tmp"
  ∧ MultiSymbolTable.is_free_name declared.1.2 (CodeObject.symbol_table c)
      "tmp" = true.
Proof.
  intros s0 c opened declared. split; [vm_compute; reflexivity|].
  destruct (nested_variable_is_local s0.1 s0.2 c [] opened.1 opened.2
              "tmp" 7 declared.1.1 declared.1.2 declared.2) as [Hsame _].
  - vm_compute. reflexivity.
  - intros r Hr. apply elem_of_dom.
    let l := eval vm_compute in (scope_refs (CodeObject.symbol_table c)) in
    change (r ∈ l) in Hr.
    rewrite !elem_of_cons, elem_of_nil in Hr.
    destruct Hr as [->|[->|[->|[->|[->|[]]]]]]; vm_compute; by eexists.
  - vm_compute. reflexivity.
  - vm_compute. reflexivity.
  - rewrite Hsame. vm_compute. reflexivity.
Defined.

(** ** Opening and closing levels *)

Lemma lshift_empty (c : CodeObject.t) : CodeObject.lshift c EmptyString = c.
Proof.
  unfold CodeObject.lshift, CodeObject.set_expanded_code. simpl.
  rewrite append_nil_r. by destruct c.
Qed.

(** X16: [close_level] needs an enclosing level: on a nested code of depth
    0 or 1 it raises [IndexError], and on a deeper one it returns with the
    depth decreased by one. [open_level] raises [IndexError] on depth 0 only
    and otherwise returns with the depth increased by one. *)
Theorem close_level_depth :
  ∀ (σ : store) nc vi cr,
    (depth nc ≤ 1 → NestedCode.close_level σ nc vi cr = Raise IndexError)
    ∧ (2 ≤ depth nc →
       ∃ nc', NestedCode.close_level σ nc vi cr = Ok nc'
              ∧ depth nc' + 1 = depth nc)
    ∧ (depth nc = 0 → NestedCode.open_level σ nc = Raise IndexError)
    ∧ (1 ≤ depth nc →
       ∃ σ' nc', NestedCode.open_level σ nc = Ok (σ', nc')
                 ∧ depth nc' = depth nc + 1).
Proof.
  intros σ nc vi cr. unfold depth.
  unfold NestedCode.close_level.
  destruct (NestedCode.code_list nc) as [|level [|c rest]] eqn:Hlist; simpl.
  - split_and!; [done|lia| |lia].
    intros _. unfold NestedCode.open_level. by rewrite Hlist.
  - split_and!; [done|lia|done|]. intros _.
    destruct (open_level_Ok σ nc level [] Hlist) as (σ' & nc' & Hopen).
    destruct (open_level_inv σ nc level [] σ' nc' Hlist Hopen)
      as (new & -> & _).
    by exists σ', (NestedCode.set_code_list nc [new; CodeObject.open_level level]).
  - split_and!; [lia| |done|].
    + intros _. eexists. split; [reflexivity|]. simpl. lia.
    + intros _.
      destruct (open_level_Ok σ nc level (c :: rest) Hlist)
        as (σ' & nc' & Hopen).
      destruct (open_level_inv σ nc level (c :: rest) σ' nc' Hlist Hopen)
        as (new & -> & _).
      eexists _, _. split; [exact Hopen|]. simpl. lia.
Qed.

Lemma close_level_depth_witness :
  let s0 := NestedCode.init ∅ assign_generator false true in
  NestedCode.close_level s0.1 s0.2 (VersionInfo "1" "0") nl = Raise IndexError
  ∧ ∃ σ' nc', NestedCode.open_level s0.1 s0.2 = Ok (σ', nc') ∧ depth nc' = 2.
Proof.
  intros s0.
  destruct (close_level_depth s0.1 s0.2 (VersionInfo "1" "0") nl)
    as (Hclose & _ & _ & Hopen).
  split.
  - apply Hclose. vm_compute. lia.
  - destruct Hopen as (σ' & nc' & Hopen & Hdepth).
    + vm_compute. lia.
    + exists σ', nc'. split; [exact Hopen|]. rewrite Hdepth. reflexivity.
Defined.

Lemma generate_declaration_init code_generator :
  SymbolTable.generate_declaration SymbolTable.init code_generator
  = EmptyString.
Proof. reflexivity. Qed.

(** a level just opened has nothing to emit: its own tables are empty and
    the static ones are left to the outermost code object *)
Lemma get_new_level (σ σ' : store) nc new_code vi code_generator :
  CodeObject.expanded_code new_code = EmptyString →
  (if NestedCode.static_cst nc then True
   else created σ σ'
          (MultiSymbolTable.constant_table
             (CodeObject.symbol_table new_code))) →
  (if NestedCode.static_table nc then True
   else created σ σ'
          (MultiSymbolTable.table_table (CodeObject.symbol_table new_code))) →
  created σ σ'
    (MultiSymbolTable.variable_table (CodeObject.symbol_table new_code)) →
  created σ σ'
    (MultiSymbolTable.protected_table (CodeObject.symbol_table new_code)) →
  CodeObject.get σ' new_code vi code_generator (NestedCode.static_cst nc)
    (NestedCode.static_table nc) false true
  = EmptyString.
Proof.
  intros Hcode Hc Ht (_ & _ & Hv) (_ & _ & Hp).
  unfold CodeObject.get.
  rewrite generate_declarations_blocks, Hcode.
  unfold MultiSymbolTable.table_list. simpl. rewrite Hv, Hp.
  destruct (NestedCode.static_cst nc), (NestedCode.static_table nc);
    repeat match goal with
           | H : created _ _ _ |- _ => destruct H as (_ & _ & ->)
           end;
    reflexivity.
Qed.

Lemma open_close_level (σ : store) nc c rest vi cr :
  NestedCode.code_list nc = c :: rest →
  ∃ σ' nc',
    NestedCode.open_level σ nc = Ok (σ', nc')
    ∧ NestedCode.close_level σ' nc' vi cr
      = Ok (NestedCode.set_code_list nc
              (CodeObject.lshift c ("{" +:+ nl +:+ "}" +:+ cr) :: rest)).
Proof.
  intros Hlist.
  destruct (open_level_Ok σ nc c rest Hlist) as (σ' & nc' & Hopen).
  exists σ', nc'. split; [done|].
  destruct (open_level_inv σ nc c rest σ' nc' Hlist Hopen)
    as (new & -> & _ & _ & Hcode & _ & _ & _ & _ & Hct & Htt & Hv & Hp).
  unfold NestedCode.close_level. simpl.
  rewrite (get_new_level σ σ' nc new vi (NestedCode.code_generator nc));
    [|done|by destruct (NestedCode.static_cst nc)
     |by destruct (NestedCode.static_table nc)|done|done].
  unfold NestedCode.lshift. simpl.
  by rewrite lshift_empty, close_open_level.
Qed.

(** X17: opening a level and closing it at once, in any nested code with
    at least one level and on any store, returns the nested code with the
    text of an empty block added to its top level: the level that was
    opened emits no declaration, since its own tables are new and empty and
    the static tables are not its to emit. *)
Theorem open_level_close_level :
  ∀ (σ : store) nc c rest vi cr,
    NestedCode.code_list nc = c :: rest →
    ∃ σ' nc',
      NestedCode.open_level σ nc = Ok (σ', nc')
      ∧ NestedCode.close_level σ' nc' vi cr
        = Ok (NestedCode.set_code_list nc
                (CodeObject.lshift c ("{" +:+ nl +:+ "}" +:+ cr) :: rest)).
Proof. exact open_close_level. Qed.

Lemma open_level_close_level_witness :
  let s0 := NestedCode.init ∅ assign_generator true true in
  ∃ σ' nc' nc'',
    NestedCode.open_level s0.1 s0.2 = Ok (σ', nc')
    ∧ NestedCode.close_level σ' nc' (VersionInfo "1" "0") nl = Ok nc''
    ∧ CodeObject.expanded_code <$> NestedCode.code_list nc''
      = ["{" +:+ nl +:+ "}" +:+ nl].
Proof.
  intros s0.
  destruct (open_level_close_level s0.1 s0.2
              (default (empty_scope C_Code).2 (NestedCode.main_code s0.2)) []
              (VersionInfo "1" "0") nl) as (σ' & nc' & Hopen & Hclose).
  - vm_compute. reflexivity.
  - eexists σ', nc', _. split_and!; [exact Hopen|exact Hclose|].
    vm_compute. reflexivity.
Defined.

(** ** Constants *)

Lemma same_scope_category_table m m' tag :
  same_scope m m' → category_table m tag = category_table m' tag.
Proof.
  intros [Htab _]. unfold MultiSymbolTable.table_list in Htab.
  destruct tag; simpl; congruence.
Qed.

(** X18: [declare_cst] does not look for an earlier declaration of the
    object (unlike [declare_table]): declaring the same constant object
    twice returns two distinct names, each free when it was requested, and
    both end up bound to the object in the constant table of the scope. *)
Theorem declare_cst_twice :
  ∀ (σ : store) c (cst_object : obj) prefix,
    ∃ name1 σ1 c1 name2 σ2 c2,
      CodeObject.declare_cst σ c cst_object prefix = Some (name1, σ1, c1)
      ∧ CodeObject.declare_cst σ1 c1 cst_object prefix = Some (name2, σ2, c2)
      ∧ name1 ≠ name2
      ∧ ¬ visible σ (CodeObject.symbol_table c) name1
      ∧ let constants :=
          SymbolTable.table
            (deref σ2 (MultiSymbolTable.constant_table
                         (CodeObject.symbol_table c))) in
        Dict.get name1 constants = Some cst_object
        ∧ Dict.get name2 constants = Some cst_object.
Proof.
  intros σ c o prefix. unfold CodeObject.declare_cst.
  set (m := CodeObject.symbol_table c).
  destruct (get_free_name_total σ m prefix) as [[name1 m1] Hget1].
  set (σ1 := MultiSymbolTable.declare_cst_name σ m1 name1 o).
  destruct (get_free_name_total σ1 m1 prefix) as [[name2 m2] Hget2].
  exists name1, σ1, (CodeObject.set_symbol_table c m1).
  rewrite Hget1. simpl. rewrite Hget2. simpl.
  pose proof (same_scope_category_table _ _ ConstantSymbol
                (get_free_name_same_scope _ _ _ _ _ Hget1)) as Hc1.
  pose proof (same_scope_category_table _ _ ConstantSymbol
                (get_free_name_same_scope _ _ _ _ _ Hget2)) as Hc2.
  simpl in Hc1, Hc2.
  assert (name1 ≠ name2) as Hne.
  { intros <-. apply get_free_name_is_free, is_free_name_spec in Hget2.
    apply Hget2. apply (declared_visible σ m1 name1 o).
    apply list_elem_of_further, list_elem_of_here. }
  assert (SymbolTable.table
            (deref (MultiSymbolTable.declare_cst_name σ1 m2 name2 o)
               (MultiSymbolTable.constant_table m))
          = Dict.set name2 o
              (Dict.set name1 o
                 (SymbolTable.table
                    (deref σ (MultiSymbolTable.constant_table m)))))
    as Htable.
  { unfold σ1, MultiSymbolTable.declare_cst_name. rewrite <- Hc2, <- Hc1.
    by rewrite !deref_update_eq. }
  eexists _, _, _. split_and!; [done|done|done| | |].
  - by eapply is_free_name_spec, get_free_name_is_free.
  - rewrite Htable.
    rewrite dict_get_set, decide_False by done. apply dict_get_set_eq.
  - rewrite Htable. apply dict_get_set_eq.
Qed.

(** ** What the text of a code object depends on *)

Lemma generate_declarations_agree (σ σ' : store) m code_generator
    (exclusion_list : list symbol_tag) :
  (∀ tag, tag ∉ exclusion_list →
          deref σ' (category_table m tag) = deref σ (category_table m tag)) →
  MultiSymbolTable.generate_declarations σ' m code_generator exclusion_list
  = MultiSymbolTable.generate_declarations σ m code_generator exclusion_list.
Proof.
  intros Hagree. rewrite !generate_declarations_blocks.
  unfold MultiSymbolTable.table_list. simpl.
  pose proof (Hagree ConstantSymbol) as Hc.
  pose proof (Hagree FunctionSymbol) as Hf.
  pose proof (Hagree VariableSymbol) as Hv.
  pose proof (Hagree ProtectedSymbol) as Hp.
  pose proof (Hagree TableSymbol) as Ht. simpl in *.
  repeat match goal with
         | |- context [bool_decide (?tag ∈ exclusion_list)] =>
             destruct (bool_decide (tag ∈ exclusion_list)) eqn:?
         end;
    repeat match goal with
           | H : bool_decide _ = false |- _ => apply bool_decide_eq_false in H
           end;
    rewrite ?Hc, ?Hf, ?Hv, ?Hp, ?Ht by done; reflexivity.
Qed.

(** X19: the text that [get] returns for a code object depends on the store
    only through the tables of the categories that the call emits: changes
    to the tables of the excluded categories (the constants under
    [static_cst], the tables under [static_table], the functions under
    [skip_function]) leave the text as it is. *)
Theorem get_ignores_excluded :
  ∀ (σ σ' : store) c vi code_generator
    (static_cst static_table headers skip_function : bool),
    let m := CodeObject.symbol_table c in
    (static_cst = false →
     deref σ' (MultiSymbolTable.constant_table m)
     = deref σ (MultiSymbolTable.constant_table m)) →
    (static_table = false →
     deref σ' (MultiSymbolTable.table_table m)
     = deref σ (MultiSymbolTable.table_table m)) →
    (skip_function = false →
     deref σ' (MultiSymbolTable.function_table m)
     = deref σ (MultiSymbolTable.function_table m)) →
    deref σ' (MultiSymbolTable.variable_table m)
    = deref σ (MultiSymbolTable.variable_table m) →
    deref σ' (MultiSymbolTable.protected_table m)
    = deref σ (MultiSymbolTable.protected_table m) →
    CodeObject.get σ' c vi code_generator static_cst static_table headers
      skip_function
    = CodeObject.get σ c vi code_generator static_cst static_table headers
        skip_function.
Proof.
  intros σ σ' c vi cg sc st headers sf m Hc Ht Hf Hv Hp.
  unfold CodeObject.get. fold m.
  rewrite (generate_declarations_agree σ σ'); [done|].
  intros tag Hex.
  destruct tag; simpl; [apply Hc|apply Hf|done|done|apply Ht];
    [destruct sc|destruct sf|destruct st]; try done; exfalso; apply Hex;
    rewrite !elem_of_app, !elem_of_cons; tauto.
Qed.

Lemma get_ignores_excluded_witness :
  let s0 := empty_scope C_Code in
  let m := CodeObject.symbol_table s0.2 in
  let σ' := MultiSymbolTable.declare_cst_name s0.1 m "cst" 5 in
  let vi := VersionInfo "1" "0" in
  CodeObject.get σ' s0.2 vi assign_generator true false false true
  = CodeObject.get s0.1 s0.2 vi assign_generator true false false true
  ∧ CodeObject.get σ' s0.2 vi assign_generator false false false true
    ≠ CodeObject.get s0.1 s0.2 vi assign_generator false false false true.
Proof.
  intros s0 m σ' vi. split.
  - apply get_ignores_excluded; try done; intros _; vm_compute; reflexivity.
  - vm_compute. discriminate.
Defined.

(** ** [link_level] *)

(** X20: [link_level] keeps the level of the code object. Called right
    after an indentation, it takes that indentation back and writes the
    closing brace, the transition and the opening brace at the level of the
    block, then indents again; unlike [open_level], it writes no newline
    after the opening brace. *)
Theorem link_level_text :
  ∀ (c : CodeObject.t) (transition : string),
    CodeObject.tablevel (CodeObject.link_level c transition)
    = CodeObject.tablevel c
    ∧ CodeObject.link_level (CodeObject.inc_level c) transition
      = CodeObject.inc_level
          (CodeObject.lshift c ("} " +:+ transition +:+ " {")).
Proof.
  intros c transition. split.
  - unfold CodeObject.link_level, CodeObject.inc_level, CodeObject.lshift,
      CodeObject.dec_level.
    destruct (decide _); simpl; lia.
  - unfold CodeObject.link_level. by rewrite dec_inc_level.
Qed.

(** ** Gappa code objects *)

(** X21: the text of a Gappa code object never holds a variable
    declaration: when the variable table of its scope is an object of its
    own, declaring a variable changes nothing of what [get] returns,
    whatever its flags. *)
Theorem gappa_get_declares_no_variable :
  ∀ (σ : store) (g : GappaCodeObject.t) code_generator
    (static_cst static_table skip_function : bool) var_name (var_object : obj),
    let m := CodeObject.symbol_table (GappaCodeObject.code g) in
    MultiSymbolTable.variable_table m
    ∉ [ MultiSymbolTable.constant_table m; MultiSymbolTable.function_table m;
        MultiSymbolTable.protected_table m; MultiSymbolTable.table_table m ] →
    GappaCodeObject.get
      (MultiSymbolTable.declare_var_name σ m var_name var_object) g
      code_generator static_cst static_table skip_function
    = GappaCodeObject.get σ g code_generator static_cst static_table
        skip_function.
Proof.
  intros σ g cg sc st sf name o m Hown.
  unfold GappaCodeObject.get. fold m.
  rewrite (generate_declarations_agree σ); [done|].
  intros tag Hex. unfold MultiSymbolTable.declare_var_name.
  apply deref_update_ne. intros Heq. apply Hown.
  rewrite !elem_of_cons.
  destruct tag; simpl in Heq; [tauto|tauto| |tauto|tauto].
  exfalso. apply Hex. rewrite !elem_of_app, !elem_of_cons. tauto.
Qed.

Lemma gappa_get_declares_no_variable_witness :
  let s0 := GappaCodeObject.init ∅ in
  let m := CodeObject.symbol_table (GappaCodeObject.code s0.2) in
  let σ' := MultiSymbolTable.declare_var_name s0.1 m "x" 1 in
  GappaCodeObject.get σ' s0.2 assign_generator false false true
  = GappaCodeObject.get s0.1 s0.2 assign_generator false false true
  ∧ CodeObject.get σ' (GappaCodeObject.code s0.2) (VersionInfo "1" "0")
      assign_generator false false false true
    ≠ CodeObject.get s0.1 (GappaCodeObject.code s0.2) (VersionInfo "1" "0")
        assign_generator false false false true.
Proof.
  intros s0 m σ'. split.
  - apply gappa_get_declares_no_variable.
    intros Hin. rewrite !elem_of_cons, elem_of_nil in Hin.
    vm_compute in Hin. lia.
  - vm_compute. discriminate.
Defined.

(** X22: the text of a new Gappa code object is, on any store, two
    newlines, the goal section with an empty hypothesis and an empty goal,
    and the header of the hint section. The hints come last in the text, in
    the order of their addition: [add_hint] appends one line and an empty
    line to what [get] returns. *)
Theorem gappa_get_hints :
  (∀ (σ : store) code_generator (static_cst static_table skip_function : bool),
     let s := GappaCodeObject.init σ in
     GappaCodeObject.get s.1 s.2 code_generator static_cst static_table
       skip_function
     = nl +:+ nl +:+ "# goal" +:+ nl +:+ "{  ->  }" +:+ nl +:+ nl
       +:+ "#hints" +:+ nl)
  ∧ (∀ (σ : store) g code_generator
       (static_cst static_table skip_function : bool) hypoth_code goal_code,
       GappaCodeObject.get σ (GappaCodeObject.add_hint g hypoth_code goal_code)
         code_generator static_cst static_table skip_function
       = GappaCodeObject.get σ g code_generator static_cst static_table
           skip_function
         +:+ hypoth_code +:+ " -> " +:+ goal_code +:+ ";" +:+ nl +:+ nl).
Proof.
  split.
  - intros σ cg sc st sf s. unfold s, GappaCodeObject.init, CodeObject.init.
    destruct (MultiSymbolTable.init σ [] []) as [σ' m] eqn:Hinit.
    apply MultiSymbolTable_init_spec in Hinit as (_ & _ & _ & _ & _ & Hnew).
    destruct (Hnew ConstantSymbol eq_refl) as (_ & _ & Hc & _).
    destruct (Hnew FunctionSymbol eq_refl) as (_ & _ & Hf & _).
    destruct (Hnew ProtectedSymbol eq_refl) as (_ & _ & Hp & _).
    destruct (Hnew TableSymbol eq_refl) as (_ & _ & Ht & _).
    simpl in Hc, Hf, Hp, Ht.
    unfold GappaCodeObject.get.
    rewrite generate_declarations_blocks.
    unfold MultiSymbolTable.table_list. simpl. rewrite Hc, Hf, Hp, Ht.
    by destruct sc, st, sf.
  - intros σ g cg sc st sf h gl. unfold GappaCodeObject.get.
    change (GappaCodeObject.gen_complete_goal (GappaCodeObject.add_hint g h gl))
      with (GappaCodeObject.gen_complete_goal g).
    change (GappaCodeObject.code (GappaCodeObject.add_hint g h gl))
      with (GappaCodeObject.code g).
    assert (GappaCodeObject.gen_hint (GappaCodeObject.add_hint g h gl)
            = GappaCodeObject.gen_hint g
              +:+ h +:+ " -> " +:+ gl +:+ ";" +:+ nl +:+ nl) as ->.
    { unfold GappaCodeObject.gen_hint, GappaCodeObject.add_hint. simpl.
      by rewrite foldl_snoc. }
    by rewrite !append_assoc.
Qed.

Lemma join_snoc sep (l : list string) a :
  l ≠ [] →
  GappaCodeObject.join sep (l ++ [a])
  = GappaCodeObject.join sep l +:+ sep +:+ a.
Proof.
  induction l as [|b l IH]; [done|]. intros _.
  destruct l as [|b' l]; [done|].
  change (b +:+ sep +:+ GappaCodeObject.join sep ((b' :: l) ++ [a])
          = (b +:+ sep +:+ GappaCodeObject.join sep (b' :: l)) +:+ sep +:+ a).
  rewrite IH by done. by rewrite !append_assoc.
Qed.

(** X23: the goals of the goal section are printed in the order of their
    addition, joined by [" /\ "], each as its code, [" in "] and its value.
    The first goal added stands alone, a later one follows the separator;
    a goal whose value is [Gappa_Unknown] (the default of [add_goal]) is
    printed with [?], a range with its two bounds in brackets. Adding a
    goal changes neither the hypotheses nor the hints. *)
Theorem gen_complete_goal_add_goal :
  ∀ (g : GappaCodeObject.t) goal_code goal_value,
    let g' := GappaCodeObject.add_goal g goal_code goal_value in
    let goals t :=
      GappaCodeObject.join " /\ "
        (map GappaCodeObject.membership (GappaCodeObject.goal_table t)) in
    let printed :=
      goal_code +:+ " in "
        +:+ match goal_value with
            | GappaCodeObject.Gappa_Unknown => "?"
            | GappaCodeObject.Range inf sup =>
                "[" +:+ inf +:+ ", " +:+ sup +:+ "]"
            | GappaCodeObject.Other str => str
            end in
    goals g'
    = (if decide (GappaCodeObject.goal_table g = []) then printed
       else goals g +:+ " /\ " +:+ printed)
    ∧ GappaCodeObject.gen_complete_goal g'
      = "# goal" +:+ nl +:+ "{ "
        +:+ GappaCodeObject.join " /\ "
              (map GappaCodeObject.membership
                 (GappaCodeObject.hypothesis_table g))
        +:+ " -> " +:+ goals g' +:+ " }" +:+ nl +:+ nl
    ∧ GappaCodeObject.gen_hint g' = GappaCodeObject.gen_hint g.
Proof.
  intros g code v g' goals printed. split_and!; [|reflexivity|reflexivity].
  unfold goals, g', GappaCodeObject.add_goal. simpl. rewrite map_app. simpl.
  destruct (decide (GappaCodeObject.goal_table g = [])) as [->|Hne].
  - by destruct v.
  - rewrite join_snoc.
    + by destruct v.
    + by destruct (GappaCodeObject.goal_table g).
Qed.

(** ** Headers of a nested code *)

(** X24: [NestedCode.add_header] gives the header to the outermost code
    object and keeps the depth, while [NestedCode.get] reads the innermost
    one: as long as a nested level is open, adding a header leaves the text
    that [get] returns unchanged; at depth 1 the header reaches the code
    object that [get] reads. *)
Theorem nested_add_header :
  ∀ (σ : store) nc vi code_generator header_file,
    depth (NestedCode.add_header nc header_file) = depth nc
    ∧ (2 ≤ depth nc →
       NestedCode.get σ (NestedCode.add_header nc header_file) vi
         code_generator
       = NestedCode.get σ nc vi code_generator)
    ∧ (∀ c, NestedCode.code_list nc = [c] →
            NestedCode.code_list (NestedCode.add_header nc header_file)
            = [CodeObject.add_header c header_file]).
Proof.
  intros σ nc vi cg h. unfold depth, NestedCode.add_header.
  destruct (reverse (NestedCode.code_list nc)) as [|main rest'] eqn:Hrev.
  - split_and!; [done|done|]. intros c Hc. by rewrite Hc in Hrev.
  - assert (NestedCode.code_list nc = reverse rest' ++ [main]) as Hlist.
    { by rewrite <- (reverse_involutive (NestedCode.code_list nc)), Hrev,
        reverse_cons. }
    simpl. rewrite reverse_cons. split_and!.
    + rewrite Hlist, !length_app. simpl. lia.
    + rewrite Hlist, length_app. simpl. intros Hdepth.
      unfold NestedCode.get. simpl. rewrite Hlist.
      destruct (reverse rest') as [|top l]; [simpl in Hdepth; lia|done].
    + intros c Hc. rewrite Hc in Hlist.
      destruct (reverse rest') as [|top l].
      * simpl in *. by injection Hlist as ->.
      * destruct l; discriminate Hlist.
Qed.

Lemma nested_add_header_witness :
  let s0 := NestedCode.init ∅ assign_generator false true in
  let opened :=
    match NestedCode.open_level s0.1 s0.2 with
    | Ok s => s
    | Raise _ => s0
    end in
  let vi := VersionInfo "1" "0" in
  NestedCode.get opened.1 (NestedCode.add_header opened.2 "math.h") vi
    assign_generator
  = NestedCode.get opened.1 opened.2 vi assign_generator
  ∧ NestedCode.get s0.1 (NestedCode.add_header s0.2 "math.h") vi
      assign_generator
    ≠ NestedCode.get s0.1 s0.2 vi assign_generator.
Proof.
  intros s0 opened vi. split.
  - apply (proj1 (proj2 (nested_add_header opened.1 opened.2 vi
                           assign_generator "math.h"))).
    vm_compute. lia.
  - vm_compute. discriminate.
Defined.

(** ** Completeness of the identity search *)

(** X25: [table_has_definition] finds nothing exactly when the object is
    bound in the table category of no scope reached from the scope: the
    search is complete over the table categories, and it reads no other
    category (an object declared as a constant, a variable or a function
    only is not found). *)
Theorem table_has_definition_None_iff :
  ∀ (σ : store) m (table_object : obj),
    MultiSymbolTable.table_has_definition σ m table_object = None
    ↔ ∀ a, reaches a m →
           table_object
           ∉ (SymbolTable.table (deref σ (MultiSymbolTable.table_table a))).*2.
Proof.
  intros σ m o. split.
  - intros Hnone a Hreach Hin.
    destruct (table_has_definition_reaches σ a m o Hreach) as [key Hkey];
      [|congruence].
    unfold SymbolTable.has_definition.
    destruct (SymbolTable.has_definition_in _ o) eqn:Hdef; [by eexists|].
    by apply has_definition_in_None in Hdef.
  - intros Hnowhere.
    destruct (MultiSymbolTable.table_has_definition σ m o) as [key|] eqn:Hdef;
      [|done].
    exfalso.
    apply table_has_definition_sound in Hdef as (a & Hreach & Hin).
    apply (Hnowhere a Hreach). apply list_elem_of_fmap. by exists (key, o).
Qed.

(** * Further properties of the VHDL backend *)

(** ** The zero-extension rewrite *)

(** X26: [zext_modifier] reads the operand first, then [ext_size]: it
    raises [IndexError] on a node without operand, [AttributeError] on a
    node without [ext_size], and [AssertionError] on a negative size. With
    size 0, once the warning is reported, it returns the operand itself.
    With a positive size [n] and an operand of [w] bits it returns the
    concatenation of a constant 0 of [n] bits and the operand, of [n + w]
    bits, with the tag of the node; an operand without format makes it
    raise [AttributeError]. *)
Theorem zext_modifier_cases :
  ∀ get_bit_size report_warning (optree : ML_Operation),
    let zext := zext_modifier get_bit_size report_warning optree in
    (inputs optree = [] → zext = Raise IndexError)
    ∧ (∀ ext_input rest, inputs optree = ext_input :: rest →
         (ext_size optree = None → zext = Raise AttributeError)
         ∧ (∀ n, ext_size optree = Some n → (n < 0)%Z →
                 zext = Raise AssertionError)
         ∧ (ext_size optree = Some 0%Z → report_warning optree = Ok tt →
            zext = Ok ext_input)
         ∧ (∀ n, ext_size optree = Some n → (0 < n)%Z →
              precision ext_input = None → zext = Raise AttributeError)
         ∧ (∀ n fmt w, ext_size optree = Some n → (0 < n)%Z →
              precision ext_input = Some fmt → get_bit_size fmt = Ok w →
              zext
              = Ok (Node Op.Concatenation None
                      [ Node Op.Constant None []
                          (Some (ML_StdLogicVectorFormat n)) None None
                          (Some 0%Z);
                        ext_input ]
                      (Some (ML_StdLogicVectorFormat (n + w))) (tag optree)
                      None None))).
Proof.
  intros get_bit_size report optree zext. unfold zext, zext_modifier.
  unfold get_input, get_ext_size, precision_bit_size, get_precision. split.
  - by intros ->.
  - intros ext_input rest ->. simpl. split_and!.
    + by intros ->.
    + intros n -> Hn. simpl. by rewrite decide_True.
    + intros -> Hreport. simpl. by rewrite Hreport.
    + intros n -> Hn Hprec. simpl.
      rewrite decide_False, decide_False by lia. by rewrite Hprec.
    + intros n fmt w -> Hn Hprec Hsize. simpl.
      rewrite decide_False, decide_False by lia. by rewrite Hprec, Hsize.
Qed.

Lemma zext_modifier_cases_witness :
  let get_bit_size fmt :=
    match fmt with
    | ML_StdLogicVectorFormat n => Ok n
    | _ => Raise AttributeError
    end in
  let x :=
    Node Op.Select None [] (Some (ML_StdLogicVectorFormat 8)) (Some "x")
      None None in
  let optree :=
    Node Op.ZeroExt None [x] (Some (ML_StdLogicVectorFormat 12)) (Some "zx")
      (Some 4%Z) None in
  zext_modifier get_bit_size (λ _, Ok tt) optree
  = Ok (Concatenation (Constant 0 (Some (ML_StdLogicVectorFormat 4))) x
          (Some (ML_StdLogicVectorFormat 12)) (Some "zx")).
Proof.
  intros get_bit_size x optree.
  destruct (zext_modifier_cases get_bit_size (λ _, Ok tt) optree)
    as (_ & Hcases).
  destruct (Hcases x [] eq_refl) as (_ & _ & _ & _ & Hpositive).
  apply (Hpositive 4%Z (ML_StdLogicVectorFormat 8) 8%Z);
    [reflexivity|lia|reflexivity|reflexivity].
Defined.

(** ** The rewrites lead back into the table *)

(** X27: the trees that the two rewrites build are generated without
    another rewrite. For a node with one bit-vector operand and a bit-vector
    result, the tree of [negation_modifer] resolves in the VHDL table to the
    symbol operator ["+"] and its first operand to the function operator
    ["not"]; with a positive [ext_size] and an operand of known width, the
    tree of [zext_modifier] resolves to the symbol operator ["&"]. *)
Theorem rewrites_resolve :
  ∀ build get_bit_size report_warning (optree operand : ML_Operation) n k,
    inputs optree = [operand] →
    precision optree = Some (ML_StdLogicVectorFormat n) →
    precision operand = Some (ML_StdLogicVectorFormat k) →
    (∃ negated sum,
       negation_modifer optree = Ok sum
       ∧ inputs sum !! 0 = Some negated
       ∧ resolve (vhdl_code_generation_table build) sum
         = Some (SymbolOperator "+" 2 (Some true))
       ∧ resolve (vhdl_code_generation_table build) negated
         = Some (FunctionOperator "not" 1))
    ∧ (∀ e w, ext_size optree = Some e → (0 < e)%Z →
         get_bit_size (ML_StdLogicVectorFormat k) = Ok w →
         ∃ extended,
           zext_modifier get_bit_size report_warning optree = Ok extended
           ∧ resolve (vhdl_code_generation_table build) extended
             = Some (SymbolOperator "&" 2 None)).
Proof.
  intros build get_bit_size report [op spec ins prec tg ext val] operand n k.
  simpl. intros -> -> Hoperand. split.
  - eexists _, _. split_and!; [reflexivity|reflexivity| |].
    + unfold resolve, resolve_groups, interface, get_precision. simpl. done.
    + unfold resolve, resolve_groups, interface, get_precision. simpl.
      by rewrite Hoperand.
  - intros e w -> He Hw. eexists. split.
    + unfold zext_modifier, get_input, get_ext_size, precision_bit_size,
        get_precision. simpl.
      rewrite decide_False, decide_False by lia.
      rewrite Hoperand, Hw. reflexivity.
    + unfold resolve, resolve_groups, interface, get_precision. simpl.
      by rewrite Hoperand.
Qed.

Lemma rewrites_resolve_witness :
  let get_bit_size fmt :=
    match fmt with
    | ML_StdLogicVectorFormat n => Ok n
    | _ => Raise AttributeError
    end in
  let x :=
    Node Op.Select None [] (Some (ML_StdLogicVectorFormat 8)) (Some "x")
      None None in
  let optree :=
    Node Op.ZeroExt None [x] (Some (ML_StdLogicVectorFormat 12)) (Some "zx")
      (Some 4%Z) None in
  ∃ extended,
    zext_modifier get_bit_size (λ _, Ok tt) optree = Ok extended
    ∧ resolve (vhdl_code_generation_table (λ _ _ _ _, [])) extended
      = Some (SymbolOperator "&" 2 None).
Proof.
  intros get_bit_size x optree.
  destruct (rewrites_resolve (λ _ _ _ _, []) get_bit_size (λ _, Ok tt)
              optree x 12 8 eq_refl eq_refl eq_refl) as (_ & Hzext).
  apply (Hzext 4%Z 8%Z); [reflexivity|lia|reflexivity].
Defined.

(** ** Choice of the rule group *)





